(** * Expression trees: tokeniser, infix-to-postfix conversion, tree building,
      evaluation and rendering (ExprTree.cpp)

    The development follows the source file top-down.  Values of the C++
    program are modelled as follows:

    - [std::string] is [string], [char] is [ascii];
    - [std::vector<string>] is [list string], [push_back] appends at the end
      and [vec[vec.size() - 1]] is a list lookup and update by index;
    - [std::stack<T>] is [list T] with the top of the stack at the head;
    - [int] is a 32-bit two's complement integer, an element of [Z] together
      with the wrap-around of the usual targets written out;
    - an operation has a [behaviour]: it returns, it throws, or it has no
      defined behaviour (null dereference, [top()]/[pop()] on an empty stack,
      division by zero);
    - a tree is a value, a node together with its subtrees; the objects in
      memory, their addresses and their destruction are the subject of the
      module [Store] at the end of the definitions. *)

From Stdlib Require Import ZArith Lia Bool Ascii String DecimalString DecimalPos.
From stdpp Require Import base option list strings gmap.

Local Open Scope string_scope.
Local Open Scope list_scope.
Local Open Scope Z_scope.

(** ** Behaviours *)

(** The error conditions named by the specification.  The source has no
    [throw] statement: no function below produces [Throws]. *)
Inductive error : Type :=
  | MalformedExpression
  | DivisionByZero
  | EmptyTree
  | UnrecognizedOperator.

(** The ways in which the source leaves the defined part of C++. *)
Inductive undefined : Type :=
  | NullDereference      (* member call through a null [TreeNode *] *)
  | EmptyStackAccess     (* [top()] or [pop()] on an empty [std::stack] *)
  | IntegerDivision      (* [a / b] with [b == 0], or [INT_MIN / -1] *)
  | DanglingPointer      (* use or [delete] of a node that has been deleted *)
  | EndlessRecursion.    (* recursion through a cycle of node pointers *)

Inductive behaviour (A : Type) : Type :=
  | Returns (a : A)
  | Throws (e : error)
  | Undefined (u : undefined).

Arguments Returns {A} a.
Arguments Throws {A} e.
Arguments Undefined {A} u.

#[global] Instance behaviour_ret : MRet behaviour := fun A a => Returns a.
#[global] Instance behaviour_bind : MBind behaviour := fun A B f m =>
  match m with
  | Returns a => f a
  | Throws e => Throws e
  | Undefined u => Undefined u
  end.

(** An operation that signals no error, whatever its arguments make it do. *)
Definition never_throws {A} (m : behaviour A) : Prop :=
  forall e, m <> Throws e.

(** ** [int] *)

(** C++ leaves the overflow of [+], [-] and [*] on [int] undefined.  The
    model takes what the two's complement hardware gives, the result reduced
    to 32 bits; the statements that need exact arithmetic assume that no
    result leaves the range of [int]. *)
Definition INT_MAX : Z := 2147483647.
Definition INT_MIN : Z := -2147483648.

Definition in_int (z : Z) : bool := (INT_MIN <=? z) && (z <=? INT_MAX).

(** Reduction of a mathematical integer to the 32-bit two's complement
    value that represents it. *)
Definition wrap (z : Z) : Z := (z + 2147483648) mod 4294967296 - 2147483648.

Definition int_add (a b : Z) : Z := wrap (a + b).
Definition int_sub (a b : Z) : Z := wrap (a - b).
Definition int_mul (a b : Z) : Z := wrap (a * b).

(** [a / b] on [int]: truncation towards zero; no result when [b] is zero
    or when the quotient is not representable. *)
Definition int_div (a b : Z) : behaviour Z :=
  if (b =? 0) || ((a =? INT_MIN) && (b =? -1)) then Undefined IntegerDivision
  else Returns (Z.quot a b).

(** ** Helper functions on characters and strings *)

(** [bool isdigit(const char & c)] *)
Definition isdigit (c : ascii) : bool :=
  match c with
  | "0" | "1" | "2" | "3" | "4" | "5" | "6" | "7" | "8" | "9" => true
  | _ => false
  end%char.

(** The loop of [is_number], which advances the iterator [it] while it is
    not at the end and points to a digit: the suffix of [s] at which the
    iterator stops. *)
Fixpoint skip_digits (s : string) : string :=
  match s with
  | EmptyString => EmptyString
  | String c s' => if isdigit c then skip_digits s' else s
  end.

(** [bool is_number(const std::string & s)] *)
Definition is_number (s : string) : bool :=
  negb (s =? "")%string && (skip_digits s =? "")%string.

(** The value of a decimal digit. *)
Definition digit_value (c : ascii) : Z := Z.of_N (N_of_ascii c) - 48.

(** The digit loop of [atoi]: accumulate while the next character is a
    digit. *)
Fixpoint atoi_digits (acc : Z) (s : string) : Z :=
  match s with
  | EmptyString => acc
  | String c s' =>
      if isdigit c then atoi_digits (10 * acc + digit_value c) s' else acc
  end.

(** [int to_number(const std::string & s)], that is [atoi(s.c_str())].  The
    source applies it to strings accepted by [is_number] only, so the
    handling of leading blanks and of a sign by [atoi] is left out.  For a
    value that an [int] cannot hold the C standard leaves the result of
    [atoi] open; the model takes the value reduced to 32 bits, which is what
    the usual implementation through [strtol] returns on a target with a
    64-bit [long] for the values that a [long] can hold. *)
Definition to_number (s : string) : Z := wrap (atoi_digits 0 s).

(** [string to_string(const int & n)]: the decimal numeral, with a minus
    sign for a negative number. *)
Definition int_to_string (n : Z) : string :=
  NilZero.string_of_int (Z.to_int n).

(** [string to_string(const char & c)] *)
Definition char_to_string (c : ascii) : string := String c EmptyString.

(** ** The tokeniser *)

(** One iteration of the loop of [tokenise] on the vector [vec].  The
    element [vec[vec.size() - 1]] exists exactly when [vec] is not empty,
    which is what the guard [!vec.empty()] of the source checks first. *)
Definition tokenise_step (vec : list string) (c : ascii) : list string :=
  if Ascii.eqb c " " then vec
  else
    match vec !! (length vec - 1)%nat with
    | Some lastTok =>
        if isdigit c && is_number lastTok
        then <[(length vec - 1)%nat := (lastTok +:+ char_to_string c)]> vec
        else vec ++ [char_to_string c]
    | None => vec ++ [char_to_string c]
    end.

Fixpoint tokenise_from (vec : list string) (expression : string) : list string :=
  match expression with
  | EmptyString => vec
  | String c rest => tokenise_from (tokenise_step vec c) rest
  end.

(** [vector<string> ExprTree::tokenise(string expression)] *)
Definition tokenise (expression : string) : list string :=
  tokenise_from [] expression.

(** ** Infix to postfix *)

(** [int getPrecedence(string op)] *)
Definition getPrecedence (op : string) : Z :=
  if (op =? "(")%string then 0
  else if (op =? "+")%string || (op =? "-")%string then 1
  else if (op =? "*")%string || (op =? "/")%string then 2
  else 3.

(** [std::stack]: [top()] and [pop()] have no defined behaviour on an empty
    stack. *)
Definition top {A} (s : list A) : behaviour A :=
  match s with
  | [] => Undefined EmptyStackAccess
  | x :: _ => Returns x
  end.

Definition pop {A} (s : list A) : behaviour (list A) :=
  match s with
  | [] => Undefined EmptyStackAccess
  | _ :: s' => Returns s'
  end.

(** The loop that a closing parenthesis starts: move operators from the stack
    to the output while the top of the stack is not an opening parenthesis. *)
Fixpoint drain_to_open (opStack vec : list string)
  : behaviour (list string * list string) :=
  match opStack with
  | [] => Undefined EmptyStackAccess
  | t :: rest =>
      if (t =? "(")%string then Returns (opStack, vec)
      else drain_to_open rest (vec ++ [t])
  end.

(** The loop that an operator [tok] starts: move operators from the stack to
    the output while the stack is not empty and its top has a precedence
    greater than or equal to that of [tok]. *)
Fixpoint drain_higher (tok : string) (opStack vec : list string)
  : list string * list string :=
  match opStack with
  | [] => (opStack, vec)
  | t :: rest =>
      if getPrecedence t >=? getPrecedence tok
      then drain_higher tok rest (vec ++ [t])
      else (opStack, vec)
  end.

(** The body of the [for] loop of [to_postfix] on the pair of the operator
    stack and the output vector. *)
Definition postfix_step (st : list string * list string) (tok : string)
  : behaviour (list string * list string) :=
  let '(opStack, vec) := st in
  if (tok =? "(")%string then Returns (tok :: opStack, vec)
  else if (tok =? ")")%string then
    '(opStack1, vec1) ← drain_to_open opStack vec;
    opStack2 ← pop opStack1;
    Returns (opStack2, vec1)
  else if is_number tok then Returns (opStack, vec ++ [tok])
  else
    let '(opStack1, vec1) := drain_higher tok opStack vec in
    Returns (tok :: opStack1, vec1).

Fixpoint postfix_loop (tokens : list string) (st : list string * list string)
  : behaviour (list string * list string) :=
  match tokens with
  | [] => Returns st
  | tok :: rest => st' ← postfix_step st tok; postfix_loop rest st'
  end.

(** [vector<string> to_postfix(vector<string> tokens)]; the final loop moves
    what is left on the stack to the output, top first. *)
Definition to_postfix (tokens : list string) : behaviour (list string) :=
  '(opStack, vec) ← postfix_loop tokens ([], []);
  Returns (vec ++ opStack).

(** ** Tree nodes *)

(** Modelled from the spec: the class [TreeNode] and the enumeration of node
    kinds (TreeNode.h and TreeNode.cpp are not part of the sources).  A node
    carries a kind, an integer and the pointers to its two children; a null
    pointer is [None].  A node built from a kind has no children and its
    integer field is taken to be zero; a node built from an integer is a
    [Value] leaf. *)
Inductive Operator : Type := Value | Plus | Minus | Times | Divide | NoOp.

#[local] Unset Elimination Schemes.
Inductive TreeNode : Type :=
  | Node (op : Operator) (value : Z) (leftChild rightChild : option TreeNode).
#[local] Set Elimination Schemes.

(** Induction on a tree goes through the two optional children. *)
Definition on_child (P : TreeNode -> Prop) (p : option TreeNode) : Prop :=
  match p with None => True | Some c => P c end.

Section TreeNode_induction.
Variable P : TreeNode -> Prop.
Hypothesis P_node : forall op v l r,
  on_child P l -> on_child P r -> P (Node op v l r).

Fixpoint TreeNode_ind (n : TreeNode) : P n :=
  match n with
  | Node op v l r =>
      P_node op v l r
        (match l with None => I | Some c => TreeNode_ind c end)
        (match r with None => I | Some c => TreeNode_ind c end)
  end.
End TreeNode_induction.

Definition getOperator (n : TreeNode) : Operator :=
  match n with Node op _ _ _ => op end.
Definition getValue (n : TreeNode) : Z :=
  match n with Node _ v _ _ => v end.
Definition getLeftChild (n : TreeNode) : option TreeNode :=
  match n with Node _ _ l _ => l end.
Definition getRightChild (n : TreeNode) : option TreeNode :=
  match n with Node _ _ _ r => r end.
Definition setLeftChild (n : TreeNode) (l : option TreeNode) : TreeNode :=
  match n with Node op v _ r => Node op v l r end.
Definition setRightChild (n : TreeNode) (r : option TreeNode) : TreeNode :=
  match n with Node op v l _ => Node op v l r end.

Definition TreeNode_of_operator (o : Operator) : TreeNode := Node o 0 None None.
Definition TreeNode_of_int (v : Z) : TreeNode := Node Value v None None.

(** Modelled from the spec: [TreeNode::toString], the numeral of a [Value]
    node and the one-character symbol of an operator node. *)
Definition toString (n : TreeNode) : string :=
  match getOperator n with
  | Value => int_to_string (getValue n)
  | Plus => "+"
  | Minus => "-"
  | Times => "*"
  | Divide => "/"
  | NoOp => ""
  end.

(** [TreeNode * createOperatorNode(const string & op)] *)
Definition createOperatorNode (op : string) : TreeNode :=
  if (op =? "+")%string then TreeNode_of_operator Plus
  else if (op =? "-")%string then TreeNode_of_operator Minus
  else if (op =? "*")%string then TreeNode_of_operator Times
  else if (op =? "/")%string then TreeNode_of_operator Divide
  else TreeNode_of_operator NoOp.

(** [int countSize(TreeNode *r)].  The number of nodes of a tree that the
    program holds in memory is taken to be below [INT_MAX]. *)
Fixpoint countSize_at (n : TreeNode) : Z :=
  let countSize r :=
    match r with None => 0 | Some c => countSize_at c end in
  match n with
  | Node _ _ l r => countSize l + countSize r + 1
  end.

Definition countSize (r : option TreeNode) : Z :=
  match r with None => 0 | Some c => countSize_at c end.

(** ** Expression trees *)

Record ExprTree : Type := mkExprTree { root : option TreeNode; _size : Z }.

(** [ExprTree::ExprTree()] *)
Definition ExprTree_empty : ExprTree :=
  {| root := None; _size := countSize None |}.

(** [ExprTree::ExprTree(TreeNode * r)] *)
Definition ExprTree_of (r : option TreeNode) : ExprTree :=
  {| root := r; _size := countSize r |}.

(** [int ExprTree::size()] and [bool ExprTree::isEmpty()] *)
Definition size (t : ExprTree) : Z := _size t.
Definition isEmpty (t : ExprTree) : bool := _size t =? 0.

(** The body of the [for] loop of [buildTree] on the stack of nodes. *)
Definition build_step (nodeStack : list TreeNode) (tok : string)
  : behaviour (list TreeNode) :=
  if is_number tok then
    Returns (TreeNode_of_int (to_number tok) :: nodeStack)
  else
    let op := createOperatorNode tok in
    r ← top nodeStack;
    nodeStack1 ← pop nodeStack;
    let op1 := setRightChild op (Some r) in
    l ← top nodeStack1;
    nodeStack2 ← pop nodeStack1;
    let op2 := setLeftChild op1 (Some l) in
    Returns (op2 :: nodeStack2).

Fixpoint build_loop (postfix : list string) (nodeStack : list TreeNode)
  : behaviour (list TreeNode) :=
  match postfix with
  | [] => Returns nodeStack
  | tok :: rest => st ← build_step nodeStack tok; build_loop rest st
  end.

(** [ExprTree ExprTree::buildTree(vector<string> tokens)]; both [return]
    statements go through the constructor from a node pointer. *)
Definition buildTree (tokens : list string) : behaviour ExprTree :=
  postfix ← to_postfix tokens;
  nodeStack ← build_loop postfix [];
  match nodeStack with
  | [] => Returns (ExprTree_of None)
  | n :: _ => Returns (ExprTree_of (Some n))
  end.

(** ** Evaluation *)

(** [int ExprTree::evaluate(TreeNode * n)]: [evaluate_at] is the body for a
    node that exists, [evaluate] adds the dereference of the pointer.  The
    left operand is taken first. *)
Fixpoint evaluate_at (n : TreeNode) : behaviour Z :=
  let evaluate p :=
    match p with
    | None => Undefined NullDereference
    | Some c => evaluate_at c
    end in
  match n with
  | Node Plus _ l r => a ← evaluate l; b ← evaluate r; Returns (int_add a b)
  | Node Minus _ l r => a ← evaluate l; b ← evaluate r; Returns (int_sub a b)
  | Node Times _ l r => a ← evaluate l; b ← evaluate r; Returns (int_mul a b)
  | Node Divide _ l r => a ← evaluate l; b ← evaluate r; int_div a b
  | Node _ v _ _ => Returns v
  end.

Definition evaluate (n : option TreeNode) : behaviour Z :=
  match n with
  | None => Undefined NullDereference
  | Some c => evaluate_at c
  end.

(** [int ExprTree::evaluateWholeTree()] *)
Definition evaluateWholeTree (t : ExprTree) : behaviour Z := evaluate (root t).

(** ** Rendering *)

(** The three renderers take an [ExprTree]; the recursive calls of the source
    pass a child pointer, from which the constructor [ExprTree_of] makes the
    argument.  [prefix_at], [infix_at] and [postfix_at] are the bodies for a
    root that exists.  These functions give the string that is returned; what
    the calls do to the nodes in memory is followed in the module [Store],
    and the lemma [renderers_on_layout] relates the two. *)
Fixpoint prefix_at (n : TreeNode) : behaviour string :=
  let prefixOrder p :=
    match p with
    | None => Undefined NullDereference
    | Some c => prefix_at c
    end in
  match getOperator n with
  | Value => Returns (toString n)
  | Plus | Minus | Times | Divide =>
      let '(Node _ _ l r) := n in
      sl ← prefixOrder l; sr ← prefixOrder r;
      Returns (toString n +:+ " " +:+ sl +:+ " " +:+ sr)
  | NoOp => Returns ""
  end.

Fixpoint infix_at (n : TreeNode) : behaviour string :=
  let infixOrder p :=
    match p with
    | None => Undefined NullDereference
    | Some c => infix_at c
    end in
  match getOperator n with
  | Value => Returns (toString n)
  | Plus | Minus | Times | Divide =>
      let '(Node _ _ l r) := n in
      sl ← infixOrder l; sr ← infixOrder r;
      Returns (sl +:+ " " +:+ toString n +:+ " " +:+ sr)
  | NoOp => Returns ""
  end.

Fixpoint postfix_at (n : TreeNode) : behaviour string :=
  let postfixOrder p :=
    match p with
    | None => Undefined NullDereference
    | Some c => postfix_at c
    end in
  match getOperator n with
  | Value => Returns (toString n)
  | Plus | Minus | Times | Divide =>
      let '(Node _ _ l r) := n in
      sl ← postfixOrder l; sr ← postfixOrder r;
      Returns (sl +:+ " " +:+ sr +:+ " " +:+ toString n)
  | NoOp => Returns ""
  end.

(** [string ExprTree::prefixOrder(const ExprTree &t)] and its two siblings *)
Definition prefixOrder (t : ExprTree) : behaviour string :=
  match root t with
  | None => Undefined NullDereference
  | Some n => prefix_at n
  end.

Definition infixOrder (t : ExprTree) : behaviour string :=
  match root t with
  | None => Undefined NullDereference
  | Some n => infix_at n
  end.

Definition postfixOrder (t : ExprTree) : behaviour string :=
  match root t with
  | None => Undefined NullDereference
  | Some n => postfix_at n
  end.

(** The whole pipeline on a string. *)
Definition run (expression : string) : behaviour Z :=
  t ← buildTree (tokenise expression); evaluateWholeTree t.

(** ** Predicates used in the statements *)

(** The tokens are one-character strings or numbers, at every point of the
    scan. *)
Definition token_shape (t : string) : Prop :=
  String.length t = 1%nat \/ is_number t = true.

(** A token that contains a space character. *)
Definition has_space (t : string) : Prop := In " "%char (list_ascii_of_string t).

(** The tab character. *)
Definition tab : ascii := "009"%char.

(** ** Well-formed infix expressions *)

(** The infix token sequences that the converter is written for, as a
    grammar: a sum is a sequence of terms separated by [+] and [-], a term a
    sequence of factors separated by [*] and [/], a factor a number or a sum
    in parentheses.  The shape of the derivation is the reading of the token
    sequence under the standard precedence, with operators of equal
    precedence grouped from the left. *)
Inductive addop : Type := OpPlus | OpMinus.
Inductive mulop : Type := OpTimes | OpDivide.

Inductive expr : Type :=
  | ETerm (t : term)
  | EAdd (e : expr) (o : addop) (t : term)
with term : Type :=
  | TFactor (f : factor)
  | TMul (t : term) (o : mulop) (f : factor)
with factor : Type :=
  | FNumber (s : string)
  | FParen (e : expr).

Scheme expr_mut := Induction for expr Sort Prop
  with term_mut := Induction for term Sort Prop
  with factor_mut := Induction for factor Sort Prop.
Combined Scheme expr_term_factor_ind from expr_mut, term_mut, factor_mut.

Definition addop_token (o : addop) : string :=
  match o with OpPlus => "+" | OpMinus => "-" end.
Definition mulop_token (o : mulop) : string :=
  match o with OpTimes => "*" | OpDivide => "/" end.

(** The token sequence of an expression. *)
Fixpoint expr_tokens (e : expr) : list string :=
  match e with
  | ETerm t => term_tokens t
  | EAdd e o t => expr_tokens e ++ addop_token o :: term_tokens t
  end
with term_tokens (t : term) : list string :=
  match t with
  | TFactor f => factor_tokens f
  | TMul t o f => term_tokens t ++ mulop_token o :: factor_tokens f
  end
with factor_tokens (f : factor) : list string :=
  match f with
  | FNumber s => [s]
  | FParen e => "(" :: expr_tokens e ++ [")"]
  end.

(** Every number of the expression is a number token. *)
Fixpoint expr_wf (e : expr) : bool :=
  match e with
  | ETerm t => term_wf t
  | EAdd e _ t => expr_wf e && term_wf t
  end
with term_wf (t : term) : bool :=
  match t with
  | TFactor f => factor_wf f
  | TMul t _ f => term_wf t && factor_wf f
  end
with factor_wf (f : factor) : bool :=
  match f with
  | FNumber s => is_number s
  | FParen e => expr_wf e
  end.

(** The integer that a string of digits denotes. *)
Definition decimal (s : string) : Z := atoi_digits 0 s.

Definition addop_value (o : addop) (a b : Z) : Z :=
  match o with OpPlus => a + b | OpMinus => a - b end.

(** Division truncates towards zero and has no value for a zero divisor. *)
Definition mulop_value (o : mulop) (a b : Z) : option Z :=
  match o with
  | OpTimes => Some (a * b)
  | OpDivide => if b =? 0 then None else Some (Z.quot a b)
  end.

(** The value of an expression over the integers. *)
Fixpoint expr_value (e : expr) : option Z :=
  match e with
  | ETerm t => term_value t
  | EAdd e o t =>
      match expr_value e, term_value t with
      | Some a, Some b => Some (addop_value o a b)
      | _, _ => None
      end
  end
with term_value (t : term) : option Z :=
  match t with
  | TFactor f => factor_value f
  | TMul t o f =>
      match term_value t, factor_value f with
      | Some a, Some b => mulop_value o a b
      | _, _ => None
      end
  end
with factor_value (f : factor) : option Z :=
  match f with
  | FNumber s => Some (decimal s)
  | FParen e => expr_value e
  end.

Definition value_in_int (v : option Z) : bool :=
  match v with Some z => in_int z | None => true end.

(** Every number and every intermediate result of the expression is an
    [int]. *)
Fixpoint expr_in_int (e : expr) : bool :=
  match e with
  | ETerm t => term_in_int t
  | EAdd e' _ t => expr_in_int e' && term_in_int t && value_in_int (expr_value e)
  end
with term_in_int (t : term) : bool :=
  match t with
  | TFactor f => factor_in_int f
  | TMul t' _ f => term_in_int t' && factor_in_int f && value_in_int (term_value t)
  end
with factor_in_int (f : factor) : bool :=
  match f with
  | FNumber s => in_int (decimal s)
  | FParen e => expr_in_int e
  end.

(** The tree of an expression. *)
Definition binary (o : Operator) (l r : TreeNode) : TreeNode :=
  Node o 0 (Some l) (Some r).

Definition addop_operator (o : addop) : Operator :=
  match o with OpPlus => Plus | OpMinus => Minus end.
Definition mulop_operator (o : mulop) : Operator :=
  match o with OpTimes => Times | OpDivide => Divide end.

Fixpoint expr_tree (e : expr) : TreeNode :=
  match e with
  | ETerm t => term_tree t
  | EAdd e o t => binary (addop_operator o) (expr_tree e) (term_tree t)
  end
with term_tree (t : term) : TreeNode :=
  match t with
  | TFactor f => factor_tree f
  | TMul t o f => binary (mulop_operator o) (term_tree t) (factor_tree f)
  end
with factor_tree (f : factor) : TreeNode :=
  match f with
  | FNumber s => TreeNode_of_int (to_number s)
  | FParen e => expr_tree e
  end.

(** The postfix form of an expression, split into the part that the
    converter has written to the output when the last token of the
    expression has been read ([_output]) and the operators that are still on
    the stack above the ones found there ([_pending], top first). *)
Fixpoint expr_postfix (e : expr) : list string :=
  match e with
  | ETerm t => term_postfix t
  | EAdd e o t => expr_postfix e ++ term_postfix t ++ [addop_token o]
  end
with term_postfix (t : term) : list string :=
  match t with
  | TFactor f => factor_postfix f
  | TMul t o f => term_postfix t ++ factor_postfix f ++ [mulop_token o]
  end
with factor_postfix (f : factor) : list string :=
  match f with
  | FNumber s => [s]
  | FParen e => expr_postfix e
  end.

Definition term_pending (t : term) : list string :=
  match t with
  | TFactor _ => []
  | TMul _ o _ => [mulop_token o]
  end.

Definition term_output (t : term) : list string :=
  match t with
  | TFactor f => factor_postfix f
  | TMul t o f => term_postfix t ++ factor_postfix f
  end.

Definition expr_pending (e : expr) : list string :=
  match e with
  | ETerm t => term_pending t
  | EAdd _ o t => term_pending t ++ [addop_token o]
  end.

Definition expr_output (e : expr) : list string :=
  match e with
  | ETerm t => term_output t
  | EAdd e o t => expr_postfix e ++ term_output t
  end.

(** The operators that an operator token moves from the stack to the output
    and the ones it leaves, in the words of the specification: the longest
    run from the top of operators whose precedence is greater than or equal
    to that of the token. *)
Fixpoint moved_by (tok : string) (opStack : list string) : list string :=
  match opStack with
  | [] => []
  | t :: rest =>
      if getPrecedence t >=? getPrecedence tok then t :: moved_by tok rest
      else []
  end.

Fixpoint left_by (tok : string) (opStack : list string) : list string :=
  match opStack with
  | [] => []
  | t :: rest =>
      if getPrecedence t >=? getPrecedence tok then left_by tok rest
      else opStack
  end.

(** An arithmetic node kind. *)
Definition arithmetic (o : Operator) : bool :=
  match o with Plus | Minus | Times | Divide => true | _ => false end.


(** [below k opStack]: the top of the operator stack, when there is one, has
    a precedence lower than [k]. *)
Definition below (k : Z) (opStack : list string) : Prop :=
  match opStack with
  | [] => True
  | t :: _ => getPrecedence t < k
  end.

(** The operator tokens, and the numbers of number tokens and of operator
    tokens of a token sequence. *)
Definition is_operator (tok : string) : bool :=
  (tok =? "+")%string || (tok =? "-")%string
  || (tok =? "*")%string || (tok =? "/")%string.


(** The nodes that can be reached from a node pointer, the node itself
    first. *)
Fixpoint nodes_at (n : TreeNode) : list TreeNode :=
  let nodes p := match p with None => [] | Some c => nodes_at c end in
  match n with
  | Node _ _ l r => n :: nodes l ++ nodes r
  end.

Definition nodes (p : option TreeNode) : list TreeNode :=
  match p with None => [] | Some c => nodes_at c end.

(** ** Parentheses *)

(** [unmatched_close depth tokens]: scanning [tokens] with [depth]
    parentheses open, a closing parenthesis comes when none is open. *)
Fixpoint unmatched_close (depth : nat) (tokens : list string) : bool :=
  match tokens with
  | [] => false
  | tok :: rest =>
      if (tok =? "(")%string then unmatched_close (S depth) rest
      else if (tok =? ")")%string then
        match depth with
        | O => true
        | S d => unmatched_close d rest
        end
      else unmatched_close depth rest
  end.

(** The number of opening parentheses on the operator stack. *)
Definition opens (opStack : list string) : nat :=
  length (filter (fun t => t = "(") opStack).

(** ** Trees that read the same without parentheses *)










(** The last token of the vector, when there is one, is not a number. *)
Definition no_number_last (vec : list string) : Prop :=
  match last vec with
  | Some t => is_number t = false
  | None => True
  end.

(** ** Nodes in memory *)

(** The renderers take a [const ExprTree &] and call themselves with a
    [TreeNode *]: each recursive call makes a temporary [ExprTree] with the
    constructor from a node pointer, and the temporary is destroyed, by
    [ExprTree::~ExprTree()], at the end of the [return] statement.  This
    module has the nodes as objects at addresses, so that the destructor's
    [delete root] can be followed. *)
Module Store.

Record cell : Type := Cell {
  cell_op : Operator;
  cell_value : Z;
  cell_left : option positive;
  cell_right : option positive
}.

(** An [ExprTree] object: the root pointer and the cached size. *)
Record object : Type := Object { root : option positive; _size : Z }.

(** Access to the node at a pointer. *)
Definition load (h : gmap positive cell) (p : option positive) : behaviour cell :=
  match p with
  | None => Undefined NullDereference
  | Some a =>
      match h !! a with
      | Some c => Returns c
      | None => Undefined DanglingPointer
      end
  end.

(** Modelled from the spec: [TreeNode::toString] on a node in memory. *)
Definition toString (c : cell) : string :=
  match cell_op c with
  | Value => int_to_string (cell_value c)
  | Plus => "+"
  | Minus => "-"
  | Times => "*"
  | Divide => "/"
  | NoOp => ""
  end.

(** [int countSize(TreeNode *r)]; [fuel] bounds the depth of the
    recursion. *)
Fixpoint countSize (fuel : nat) (h : gmap positive cell) (r : option positive)
  : behaviour Z :=
  match fuel with
  | O => Undefined EndlessRecursion
  | S fuel' =>
      match r with
      | None => Returns 0
      | Some _ =>
          c ← load h r;
          nl ← countSize fuel' h (cell_left c);
          nr ← countSize fuel' h (cell_right c);
          Returns (nl + nr + 1)
      end
  end.

(** [ExprTree::ExprTree(TreeNode * r)] *)
Definition ExprTree_of (fuel : nat) (h : gmap positive cell) (r : option positive)
  : behaviour object :=
  n ← countSize fuel h r; Returns {| root := r; _size := n |}.

(** [delete p] for a node pointer: nothing for a null pointer; otherwise the
    destructor of the node runs and the node is released.  Modelled from the
    spec: the destructor of [TreeNode] (TreeNode.cpp is not part of the
    sources); [deep] tells whether it deletes the two children, as the
    specification has it, or leaves them. *)
Fixpoint delete_node (deep : bool) (fuel : nat) (h : gmap positive cell)
  (p : option positive) : behaviour (gmap positive cell) :=
  match fuel with
  | O => Undefined EndlessRecursion
  | S fuel' =>
      match p with
      | None => Returns h
      | Some a =>
          c ← load h p;
          h2 ← (if deep then
                  h1 ← delete_node deep fuel' h (cell_left c);
                  delete_node deep fuel' h1 (cell_right c)
                else Returns h);
          Returns (delete a h2)
      end
  end.

(** [ExprTree::~ExprTree()], that is [delete root]. *)
Definition ExprTree_destroy (deep : bool) (fuel : nat) (h : gmap positive cell)
  (t : object) : behaviour (gmap positive cell) :=
  delete_node deep fuel h (root t).

(** The three renderers.  The arguments of the two recursive calls are
    temporaries made from the child pointers; they are destroyed when the
    string has been put together, the one made last first. *)
Fixpoint prefixOrder (deep : bool) (fuel : nat) (h : gmap positive cell)
  (t : object) : behaviour (string * gmap positive cell) :=
  match fuel with
  | O => Undefined EndlessRecursion
  | S fuel' =>
      c ← load h (root t);
      match cell_op c with
      | Value => Returns (toString c, h)
      | Plus | Minus | Times | Divide =>
          tl ← ExprTree_of fuel' h (cell_left c);
          '(sl, h1) ← prefixOrder deep fuel' h tl;
          tr ← ExprTree_of fuel' h1 (cell_right c);
          '(sr, h2) ← prefixOrder deep fuel' h1 tr;
          h3 ← ExprTree_destroy deep fuel' h2 tr;
          h4 ← ExprTree_destroy deep fuel' h3 tl;
          Returns (toString c +:+ " " +:+ sl +:+ " " +:+ sr, h4)
      | NoOp => Returns ("", h)
      end
  end.

Fixpoint infixOrder (deep : bool) (fuel : nat) (h : gmap positive cell)
  (t : object) : behaviour (string * gmap positive cell) :=
  match fuel with
  | O => Undefined EndlessRecursion
  | S fuel' =>
      c ← load h (root t);
      match cell_op c with
      | Value => Returns (toString c, h)
      | Plus | Minus | Times | Divide =>
          tl ← ExprTree_of fuel' h (cell_left c);
          '(sl, h1) ← infixOrder deep fuel' h tl;
          tr ← ExprTree_of fuel' h1 (cell_right c);
          '(sr, h2) ← infixOrder deep fuel' h1 tr;
          h3 ← ExprTree_destroy deep fuel' h2 tr;
          h4 ← ExprTree_destroy deep fuel' h3 tl;
          Returns (sl +:+ " " +:+ toString c +:+ " " +:+ sr, h4)
      | NoOp => Returns ("", h)
      end
  end.

Fixpoint postfixOrder (deep : bool) (fuel : nat) (h : gmap positive cell)
  (t : object) : behaviour (string * gmap positive cell) :=
  match fuel with
  | O => Undefined EndlessRecursion
  | S fuel' =>
      c ← load h (root t);
      match cell_op c with
      | Value => Returns (toString c, h)
      | Plus | Minus | Times | Divide =>
          tl ← ExprTree_of fuel' h (cell_left c);
          '(sl, h1) ← postfixOrder deep fuel' h tl;
          tr ← ExprTree_of fuel' h1 (cell_right c);
          '(sr, h2) ← postfixOrder deep fuel' h1 tr;
          h3 ← ExprTree_destroy deep fuel' h2 tr;
          h4 ← ExprTree_destroy deep fuel' h3 tl;
          Returns (sl +:+ " " +:+ sr +:+ " " +:+ toString c, h4)
      | NoOp => Returns ("", h)
      end
  end.

(** The objects that [buildTree] makes for a tree, the children before their
    parent, from the free address [next] on: the address of the node, the
    memory and the next free address. *)
Fixpoint layout_at (n : TreeNode) (h : gmap positive cell) (next : positive)
  : positive * gmap positive cell * positive :=
  let layout p h next :=
    match p with
    | None => (None, h, next)
    | Some c => let '(a, h', next') := layout_at c h next in (Some a, h', next')
    end in
  match n with
  | Node op v l r =>
      let '(pl, h1, next1) := layout l h next in
      let '(pr, h2, next2) := layout r h1 next1 in
      (next2,
       <[next2 := {| cell_op := op; cell_value := v;
                     cell_left := pl; cell_right := pr |}]> h2,
       Pos.succ next2)
  end.

(** The memory that holds the tree [n] and nothing else, with the [ExprTree]
    object for it. *)
Definition layout (n : TreeNode) : gmap positive cell * object :=
  let '(a, h, _) := layout_at n ∅ 1%positive in
  (h, {| root := Some a; _size := countSize_at n |}).

End Store.

(** The tree of "1+2". *)
Definition one_plus_two : TreeNode :=
  binary Plus (TreeNode_of_int 1) (TreeNode_of_int 2).

(** The tree of "(1+2)*3". *)
Definition one_plus_two_times_three : TreeNode :=
  binary Times one_plus_two (TreeNode_of_int 3).




(** ** Further notions for the properties of the functions *)

(** [TreeNode * ExprTree::getRoot()] *)
Definition getRoot (t : ExprTree) : option TreeNode := root t.

(** The ten characters that [isdigit] accepts. *)
Definition digits : list ascii :=
  ["0"; "1"; "2"; "3"; "4"; "5"; "6"; "7"; "8"; "9"]%char.

(** A string without its space characters. *)
Fixpoint remove_spaces (s : string) : string :=
  match s with
  | EmptyString => EmptyString
  | String c s' =>
      if Ascii.eqb c " " then remove_spaces s' else String c (remove_spaces s')
  end.

(** A token of one character that is neither a space nor a digit. *)
Definition is_symbol (t : string) : bool :=
  match t with
  | String c EmptyString => negb (Ascii.eqb c " ") && negb (isdigit c)
  | _ => false
  end.

(** Two numbers stand next to each other in the sequence. *)
Fixpoint adjacent_numbers (tokens : list string) : bool :=
  match tokens with
  | a :: rest =>
      match rest with
      | b :: _ => (is_number a && is_number b) || adjacent_numbers rest
      | [] => false
      end
  | [] => false
  end.

(** A parenthesis token, and the number of closing parentheses of a
    sequence. *)
Definition is_paren (tok : string) : bool :=
  (tok =? "(")%string || (tok =? ")")%string.

Definition closes (tokens : list string) : nat :=
  length (filter (fun t => t = ")") tokens).

(** The numbers of a sequence, in their order, and the tokens that are no
    parentheses. *)
Definition numbers_of (tokens : list string) : list string :=
  filter (fun t => is_number t = true) tokens.

Definition non_parens (tokens : list string) : list string :=
  filter (fun t => is_paren t = false) tokens.

(** [well_shaped n]: every node of [n] is a [Value] leaf without children or
    an arithmetic node with its two children. *)
Fixpoint well_shaped (n : TreeNode) : bool :=
  match n with
  | Node Value _ None None => true
  | Node op _ (Some l) (Some r) => arithmetic op && well_shaped l && well_shaped r
  | Node _ _ _ _ => false
  end.

(** The integers in the leaves of a tree are [int]s. *)
Fixpoint leaves_in_int (n : TreeNode) : bool :=
  let leaves p := match p with None => true | Some c => leaves_in_int c end in
  match n with
  | Node Value v l r => in_int v && leaves l && leaves r
  | Node _ _ l r => leaves l && leaves r
  end.


(** The number of nodes of the trees on the stack of [buildTree]. *)
Definition stack_nodes (nodeStack : list TreeNode) : Z :=
  foldr (fun n acc => countSize_at n + acc) 0 nodeStack.




(** [operands_suffice depth postfix]: with [depth] nodes on the stack, every
    token of [postfix] that is not a number finds two nodes to take. *)
Fixpoint operands_suffice (depth : nat) (postfix : list string) : bool :=
  match postfix with
  | [] => true
  | tok :: rest =>
      if is_number tok then operands_suffice (S depth) rest
      else
        match depth with
        | S (S d) => operands_suffice (S d) rest
        | _ => false
        end
  end.

(** * Properties *)

(** ** The examples of the specification *)

Example tokenise_example :
  tokenise "12+3 * 45" = ["12"; "+"; "3"; "*"; "45"].
Proof. reflexivity. Qed.

Example to_postfix_example :
  to_postfix (tokenise "(1+2)*3") = Returns ["1"; "2"; "+"; "3"; "*"].
Proof. reflexivity. Qed.

Example run_precedence : run "3+4*2" = Returns 11.
Proof. reflexivity. Qed.

Example run_parentheses :
  let t := buildTree (tokenise "(1+2)*3") in
  (t ≫= evaluateWholeTree) = Returns 9
  /\ (t ≫= prefixOrder) = Returns "* + 1 2 3"
  /\ (t ≫= infixOrder) = Returns "1 + 2 * 3"
  /\ (t ≫= postfixOrder) = Returns "1 2 + 3 *".
Proof. repeat split; reflexivity. Qed.

Example empty_tree : isEmpty ExprTree_empty = true /\ size ExprTree_empty = 0.
Proof. split; reflexivity. Qed.

(** ** Numbers and digits *)

Lemma isdigit_not_space (c : ascii) : isdigit c = true -> Ascii.eqb c " " = false.
Proof.
  intros H. destruct (Ascii.eqb_spec c " ") as [->|]; [discriminate H | reflexivity].
Qed.

Lemma is_number_cons (c : ascii) (s : string) :
  is_number (String c s) = isdigit c && ((s =? "")%string || is_number s).
Proof.
  unfold is_number. simpl. destruct (isdigit c); simpl; [|reflexivity].
  destruct s; reflexivity.
Qed.

(** [is_number] holds of the non-empty strings of decimal digits. *)
Lemma is_number_spec (s : string) :
  is_number s = true <->
  s <> "" /\ Forall (fun c => isdigit c = true) (list_ascii_of_string s).
Proof.
  induction s as [|c s IH].
  - split; [discriminate | intros [H _]; now destruct H].
  - rewrite is_number_cons, andb_true_iff, orb_true_iff. simpl. split.
    + intros [Hc Hs]. split; [discriminate|]. constructor; [exact Hc|].
      destruct Hs as [Hs | Hs].
      * apply String.eqb_eq in Hs. subst s. constructor.
      * now apply IH.
    + intros [_ H]. inversion H as [|? ? Hc Hs]; subst. split; [exact Hc|].
      destruct s as [|d s]; [left; reflexivity | right].
      apply IH. split; [discriminate | exact Hs].
Qed.

Lemma is_number_snoc (s : string) (c : ascii) :
  is_number s = true -> isdigit c = true ->
  is_number (s +:+ char_to_string c) = true.
Proof.
  intros Hs Hc. induction s as [|d s IH]; [discriminate Hs|].
  rewrite is_number_cons in Hs. apply andb_true_iff in Hs as [Hd Hs].
  change (String d s +:+ char_to_string c) with (String d (s +:+ char_to_string c)).
  rewrite is_number_cons, Hd. simpl. apply orb_true_iff. right.
  destruct s as [|e s].
  - simpl. unfold is_number. simpl. now rewrite Hc.
  - apply IH. now destruct (orb_prop _ _ Hs).
Qed.

Lemma is_number_char (c : ascii) : is_number (char_to_string c) = isdigit c.
Proof. unfold is_number. simpl. now destruct (isdigit c). Qed.

(** ** The tokeniser *)

Lemma tokenise_step_space (vec : list string) : tokenise_step vec " " = vec.
Proof. reflexivity. Qed.

Lemma tokenise_step_nil (c : ascii) :
  Ascii.eqb c " " = false -> tokenise_step [] c = [char_to_string c].
Proof. intros H. unfold tokenise_step. now rewrite H. Qed.

Lemma tokenise_step_snoc (vec : list string) (t : string) (c : ascii) :
  Ascii.eqb c " " = false ->
  tokenise_step (vec ++ [t]) c =
  if isdigit c && is_number t then vec ++ [t +:+ char_to_string c]
  else vec ++ [t; char_to_string c].
Proof.
  intros H. unfold tokenise_step. rewrite H.
  replace (length (vec ++ [t]) - 1)%nat with (length vec + 0)%nat
    by (rewrite length_app; simpl; lia).
  rewrite lookup_app_r by lia.
  replace (length vec + 0 - length vec)%nat with 0%nat by lia. simpl.
  destruct (isdigit c && is_number t).
  - now rewrite insert_app_r.
  - now rewrite <- app_assoc.
Qed.

Lemma tokenise_step_shape (vec : list string) (c : ascii) :
  Forall token_shape vec -> Forall token_shape (tokenise_step vec c).
Proof.
  intros Hvec. destruct (Ascii.eqb c " ") eqn:Hc.
  - apply Ascii.eqb_eq in Hc. subst c. exact Hvec.
  - destruct vec as [|t0 vec0] using rev_ind.
    + rewrite tokenise_step_nil by exact Hc. repeat constructor.
    + rewrite tokenise_step_snoc by exact Hc.
      apply Forall_app in Hvec as [Hvec Ht].
      destruct (isdigit c && is_number t0) eqn:E.
      * apply andb_true_iff in E as [Hd Hn]. apply Forall_app. split; [exact Hvec|].
        constructor; [|constructor]. right. now apply is_number_snoc.
      * apply Forall_app. split; [exact Hvec|].
        inversion Ht; subst. constructor; [assumption|].
        constructor; [now left | constructor].
Qed.

Lemma tokenise_from_shape (s : string) (vec : list string) :
  Forall token_shape vec -> Forall token_shape (tokenise_from vec s).
Proof.
  revert vec. induction s as [|c s IH]; intros vec H; simpl; [exact H|].
  apply IH, tokenise_step_shape, H.
Qed.

(** Spaces are skipped. *)
Lemma tokenise_from_spaces (s : string) (vec : list string) :
  Forall (fun c => c = " "%char) (list_ascii_of_string s) ->
  tokenise_from vec s = vec.
Proof.
  revert vec. induction s as [|c s IH]; intros vec H; simpl; [reflexivity|].
  simpl in H. inversion H; subst. rewrite tokenise_step_space. now apply IH.
Qed.

Lemma has_space_app (s : string) (c : ascii) :
  has_space (s +:+ char_to_string c) -> has_space s \/ c = " "%char.
Proof.
  unfold has_space. induction s as [|d s IH]; simpl.
  - intros [H | []]. now right.
  - intros [H | H]; [left; now left|].
    destruct (IH H) as [H' | H']; [left; now right | now right].
Qed.

Lemma tokenise_step_no_space (vec : list string) (c : ascii) :
  Forall (fun t => ~ has_space t) vec ->
  Forall (fun t => ~ has_space t) (tokenise_step vec c).
Proof.
  intros Hvec. destruct (Ascii.eqb c " ") eqn:Hc.
  - apply Ascii.eqb_eq in Hc. subst c. exact Hvec.
  - assert (Hne : c <> " "%char) by (now apply Ascii.eqb_neq).
    assert (H1 : ~ has_space (char_to_string c)).
    { intros [H | []]. now apply Hne. }
    destruct vec as [|t0 vec0] using rev_ind.
    + rewrite tokenise_step_nil by exact Hc. now constructor.
    + rewrite tokenise_step_snoc by exact Hc.
      apply Forall_app in Hvec as [Hvec Ht]. inversion Ht; subst.
      destruct (isdigit c && is_number t0); apply Forall_app; (split; [exact Hvec|]).
      * constructor; [|constructor]. intros H.
        destruct (has_space_app _ _ H); tauto.
      * now repeat constructor.
Qed.

Lemma tokenise_from_no_space (s : string) (vec : list string) :
  Forall (fun t => ~ has_space t) vec ->
  Forall (fun t => ~ has_space t) (tokenise_from vec s).
Proof.
  revert vec. induction s as [|c s IH]; intros vec H; simpl; [exact H|].
  apply IH, tokenise_step_no_space, H.
Qed.

(** C10: every token that [tokenise] produces is non-empty, a token of more
    than one character consists of decimal digits only, and so a token that
    is not a number has exactly one character. *)
Theorem tokenise_token_shape (s : string) :
  Forall (fun t =>
            t <> ""
            /\ ((1 < String.length t)%nat ->
                is_number t = true
                /\ Forall (fun c => isdigit c = true) (list_ascii_of_string t))
            /\ (is_number t = false -> String.length t = 1%nat))
         (tokenise s).
Proof.
  eapply Forall_impl; [apply (tokenise_from_shape s []); constructor|].
  intros t [H1 | Hn]; simpl.
  - split; [intros ->; discriminate H1|]. split; [lia | intros _; exact H1].
  - pose proof (proj1 (is_number_spec t) Hn) as [Hne Hd].
    split; [exact Hne|]. split; [intros _; now split | congruence].
Qed.

(** C7: on the string that consists of one tab character, a white-space
    character, [tokenise] returns one token, the tab itself, and not the
    empty sequence: the scan skips the space character only. *)
Theorem tokenise_tab_kept :
  tokenise (char_to_string tab) = [char_to_string tab]
  /\ tokenise ("1" +:+ char_to_string tab +:+ "2")
     = ["1"; char_to_string tab; "2"].
Proof. split; reflexivity. Qed.

(** What holds of spaces: a string of spaces has no tokens, and no token
    contains a space. *)
Lemma tokenise_spaces (s : string) :
  Forall (fun c => c = " "%char) (list_ascii_of_string s) -> tokenise s = [].
Proof. apply tokenise_from_spaces. Qed.

Lemma tokenise_no_space (s : string) :
  Forall (fun t => ~ has_space t) (tokenise s).
Proof. apply tokenise_from_no_space. constructor. Qed.

(** ** Behaviours *)

Lemma bind_Returns {A B} (m : behaviour A) (f : A -> behaviour B) (a : A) :
  m = Returns a -> (m ≫= f) = f a.
Proof. now intros ->. Qed.

Lemma bind_Undefined {A B} (m : behaviour A) (f : A -> behaviour B) u :
  m = Undefined u -> (m ≫= f) = Undefined u.
Proof. now intros ->. Qed.

(** ** Evaluation *)

(** The equations of [evaluate] on a node of each kind. *)
Lemma evaluate_arithmetic (op : Operator) (v : Z) (l r : option TreeNode) :
  arithmetic op = true ->
  evaluate (Some (Node op v l r)) =
  a ← evaluate l; b ← evaluate r;
  match op with
  | Plus => Returns (int_add a b)
  | Minus => Returns (int_sub a b)
  | Times => Returns (int_mul a b)
  | _ => int_div a b
  end.
Proof. destruct op; try discriminate; reflexivity. Qed.








(** ** The empty tree *)

(** C3, as the source has it: on a tree with no root each of the four
    operations dereferences the null root, which has no defined behaviour;
    none of them signals an [EmptyTree] error. *)
Theorem empty_tree_null_dereference (t : ExprTree) :
  root t = None ->
  evaluateWholeTree t = Undefined NullDereference
  /\ prefixOrder t = Undefined NullDereference
  /\ infixOrder t = Undefined NullDereference
  /\ postfixOrder t = Undefined NullDereference.
Proof.
  intros H. unfold evaluateWholeTree, prefixOrder, infixOrder, postfixOrder.
  rewrite H. repeat split.
Qed.

Lemma empty_tree_null_dereference_witness :
  evaluateWholeTree ExprTree_empty = Undefined NullDereference
  /\ prefixOrder ExprTree_empty = Undefined NullDereference
  /\ infixOrder ExprTree_empty = Undefined NullDereference
  /\ postfixOrder ExprTree_empty = Undefined NullDereference.
Proof. apply (empty_tree_null_dereference ExprTree_empty). reflexivity. Defined.

(** C3, as stated, fails on the empty tree: no operation ends in an
    [EmptyTree] error. *)
Lemma empty_tree_not_signalled :
  evaluateWholeTree ExprTree_empty <> Throws EmptyTree
  /\ prefixOrder ExprTree_empty <> Throws EmptyTree
  /\ infixOrder ExprTree_empty <> Throws EmptyTree
  /\ postfixOrder ExprTree_empty <> Throws EmptyTree.
Proof. repeat split; discriminate. Qed.

(** ** Infix to postfix: one token *)

Lemma is_number_not_paren (s : string) :
  is_number s = true -> (s =? "(")%string = false /\ (s =? ")")%string = false.
Proof.
  intros H. split; apply String.eqb_neq; intros ->; discriminate H.
Qed.

Lemma postfix_step_open (opStack vec : list string) :
  postfix_step (opStack, vec) "(" = Returns ("(" :: opStack, vec).
Proof. reflexivity. Qed.

Lemma postfix_step_number (opStack vec : list string) (s : string) :
  is_number s = true ->
  postfix_step (opStack, vec) s = Returns (opStack, vec ++ [s]).
Proof.
  intros H. destruct (is_number_not_paren s H) as [H1 H2].
  unfold postfix_step. now rewrite H1, H2, H.
Qed.

Lemma drain_higher_spec (tok : string) (opStack vec : list string) :
  drain_higher tok opStack vec = (left_by tok opStack, vec ++ moved_by tok opStack).
Proof.
  revert vec. induction opStack as [|t rest IH]; intros vec; simpl.
  - now rewrite app_nil_r.
  - destruct (getPrecedence t >=? getPrecedence tok).
    + rewrite IH. now rewrite <- app_assoc.
    + now rewrite app_nil_r.
Qed.

Lemma moved_left_by (tok : string) (opStack : list string) :
  opStack = moved_by tok opStack ++ left_by tok opStack.
Proof.
  induction opStack as [|t rest IH]; simpl; [reflexivity|].
  destruct (getPrecedence t >=? getPrecedence tok); simpl; congruence.
Qed.

Lemma moved_by_geq (tok : string) (opStack : list string) :
  Forall (fun t => getPrecedence tok <= getPrecedence t) (moved_by tok opStack).
Proof.
  induction opStack as [|t rest IH]; simpl; [constructor|].
  destruct (getPrecedence t >=? getPrecedence tok) eqn:E; [|constructor].
  constructor; [|exact IH]. rewrite Z.geb_leb in E. now apply Z.leb_le.
Qed.

Lemma left_by_top_lower (tok t : string) (opStack rest : list string) :
  left_by tok opStack = t :: rest -> getPrecedence t < getPrecedence tok.
Proof.
  induction opStack as [|t0 rest0 IH]; simpl; [discriminate|].
  destruct (getPrecedence t0 >=? getPrecedence tok) eqn:E; [exact IH|].
  intros [= -> ->]. rewrite Z.geb_leb in E. now apply Z.leb_gt.
Qed.

Lemma postfix_step_operator (tok : string) (opStack vec : list string) :
  tok <> "(" -> tok <> ")" -> is_number tok = false ->
  postfix_step (opStack, vec) tok
  = Returns (tok :: left_by tok opStack, vec ++ moved_by tok opStack).
Proof.
  intros H1 H2 H3. unfold postfix_step.
  apply String.eqb_neq in H1, H2. rewrite H1, H2, H3.
  now rewrite drain_higher_spec.
Qed.

(** C5: an operator token moves to the output the operators on top of the
    stack whose precedence is greater than or equal to its own, stops at the
    first one of lower precedence, and is pushed; two operators of equal
    precedence are therefore written in the order in which they were read,
    and "8-3-2" evaluates to 3. *)
Theorem operator_token_pops_geq (tok : string) (opStack vec : list string) :
  tok <> "(" -> tok <> ")" -> is_number tok = false ->
  postfix_step (opStack, vec) tok
  = Returns (tok :: left_by tok opStack, vec ++ moved_by tok opStack)
  /\ opStack = moved_by tok opStack ++ left_by tok opStack
  /\ Forall (fun t => getPrecedence tok <= getPrecedence t) (moved_by tok opStack)
  /\ (forall t rest, left_by tok opStack = t :: rest ->
      getPrecedence t < getPrecedence tok)
  /\ (forall x y z a b,
      is_number x = true -> is_number y = true -> is_number z = true ->
      a ∈ ["+"; "-"; "*"; "/"] -> b ∈ ["+"; "-"; "*"; "/"] ->
      getPrecedence a = getPrecedence b ->
      to_postfix [x; a; y; b; z] = Returns [x; y; a; z; b])
  /\ run "8-3-2" = Returns 3.
Proof.
  intros H1 H2 H3. split; [now apply postfix_step_operator|].
  split; [apply moved_left_by|]. split; [apply moved_by_geq|].
  split; [intros t rest; apply left_by_top_lower|]. split; [|reflexivity].
  intros x y z a b Hx Hy Hz Ha Hb Hab.
  assert (Hop : forall o : string, o ∈ ["+"; "-"; "*"; "/"] ->
            o <> "(" /\ o <> ")" /\ is_number o = false).
  { intros o Ho. repeat (apply elem_of_cons in Ho as [-> | Ho]);
      [repeat split; discriminate ..|]. now apply elem_of_nil in Ho. }
  destruct (Hop a Ha) as (A1 & A2 & A3). destruct (Hop b Hb) as (B1 & B2 & B3).
  unfold to_postfix. cbn [postfix_loop].
  rewrite (postfix_step_number [] [] x Hx). cbn [mbind behaviour_bind].
  rewrite (postfix_step_operator a [] _ A1 A2 A3). cbn [mbind behaviour_bind left_by moved_by].
  rewrite (postfix_step_number [a] _ y Hy). cbn [mbind behaviour_bind].
  rewrite (postfix_step_operator b [a] _ B1 B2 B3). cbn [mbind behaviour_bind left_by moved_by].
  rewrite <- Hab, Z.geb_leb, Z.leb_refl.
  rewrite (postfix_step_number [b] _ z Hz). reflexivity.
Qed.

Lemma operator_token_pops_geq_witness :
  postfix_step (["*"; "+"; "("], ["1"; "2"; "3"]) "-"
  = Returns (["-"; "("], ["1"; "2"; "3"; "*"; "+"]).
Proof.
  apply (operator_token_pops_geq "-" ["*"; "+"; "("] ["1"; "2"; "3"]);
    [discriminate | discriminate | reflexivity].
Defined.

(** ** Infix to postfix: well-formed expressions *)

Lemma postfix_loop_app (a b : list string) (st : list string * list string) :
  postfix_loop (a ++ b) st = st' ← postfix_loop a st; postfix_loop b st'.
Proof.
  revert st. induction a as [|tok a IH]; intros st; simpl; [reflexivity|].
  destruct (postfix_step st tok) as [st'| |]; simpl; [apply IH | reflexivity ..].
Qed.

Lemma moved_left_by_app (tok : string) (pending opStack : list string) :
  Forall (fun t => getPrecedence tok <= getPrecedence t) pending ->
  below (getPrecedence tok) opStack ->
  moved_by tok (pending ++ opStack) = pending
  /\ left_by tok (pending ++ opStack) = opStack.
Proof.
  intros Hp Hs. induction Hp as [|t pending Ht Hp IH]; simpl.
  - destruct opStack as [|t rest]; simpl; [now split|].
    simpl in Hs. rewrite Z.geb_leb.
    destruct (Z.leb_spec (getPrecedence tok) (getPrecedence t)); [lia | now split].
  - rewrite Z.geb_leb. destruct (Z.leb_spec (getPrecedence tok) (getPrecedence t)); [|lia].
    destruct IH as [-> ->]. now split.
Qed.

Lemma drain_to_open_app (pending opStack vec : list string) :
  Forall (fun t => t <> "(") pending ->
  drain_to_open (pending ++ "(" :: opStack) vec
  = Returns ("(" :: opStack, vec ++ pending).
Proof.
  intros Hp. revert vec. induction Hp as [|t pending Ht Hp IH]; intros vec; simpl.
  - now rewrite app_nil_r.
  - apply String.eqb_neq in Ht. rewrite Ht, IH. now rewrite <- app_assoc.
Qed.

Lemma postfix_step_close (pending opStack vec : list string) :
  Forall (fun t => t <> "(") pending ->
  postfix_step (pending ++ "(" :: opStack, vec) ")"
  = Returns (opStack, vec ++ pending).
Proof.
  intros Hp. unfold postfix_step.
  change ((")" =? "(")%string) with false. change ((")" =? ")")%string) with true.
  cbv iota. now rewrite drain_to_open_app.
Qed.

Lemma addop_token_facts (o : addop) :
  addop_token o <> "(" /\ addop_token o <> ")"
  /\ is_number (addop_token o) = false /\ getPrecedence (addop_token o) = 1.
Proof. destruct o; repeat split; discriminate. Qed.

Lemma mulop_token_facts (o : mulop) :
  mulop_token o <> "(" /\ mulop_token o <> ")"
  /\ is_number (mulop_token o) = false /\ getPrecedence (mulop_token o) = 2.
Proof. destruct o; repeat split; discriminate. Qed.

Lemma term_pending_precedence (t : term) :
  Forall (fun s => getPrecedence s = 2) (term_pending t).
Proof.
  destruct t as [f|t o f]; simpl; [constructor|].
  constructor; [apply mulop_token_facts | constructor].
Qed.

Lemma expr_pending_precedence (e : expr) :
  Forall (fun s => 1 <= getPrecedence s) (expr_pending e).
Proof.
  destruct e as [t|e o t]; simpl.
  - eapply Forall_impl; [apply term_pending_precedence|]. simpl. lia.
  - apply Forall_app. split.
    + eapply Forall_impl; [apply term_pending_precedence|]. simpl. lia.
    + constructor; [|constructor]. destruct (addop_token_facts o) as (_ & _ & _ & ->). lia.
Qed.

Lemma expr_pending_not_open (e : expr) :
  Forall (fun s => s <> "(") (expr_pending e).
Proof.
  eapply Forall_impl; [apply expr_pending_precedence|].
  intros s Hs ->. simpl in Hs. change (getPrecedence "(") with 0 in Hs. lia.
Qed.

Lemma term_postfix_split (t : term) :
  term_postfix t = term_output t ++ term_pending t.
Proof.
  destruct t as [f|t o f]; simpl; [now rewrite app_nil_r | now rewrite app_assoc].
Qed.

Lemma expr_postfix_split (e : expr) :
  expr_postfix e = expr_output e ++ expr_pending e.
Proof.
  destruct e as [t|e o t]; simpl; [apply term_postfix_split|].
  rewrite term_postfix_split. now rewrite <- !app_assoc.
Qed.

(** The state of the converter after the tokens of an expression, of a term
    and of a factor. *)
Lemma postfix_loop_expr_term_factor :
  (forall e, expr_wf e = true -> forall opStack vec, below 1 opStack ->
     postfix_loop (expr_tokens e) (opStack, vec)
     = Returns (expr_pending e ++ opStack, vec ++ expr_output e))
  /\ (forall t, term_wf t = true -> forall opStack vec, below 2 opStack ->
     postfix_loop (term_tokens t) (opStack, vec)
     = Returns (term_pending t ++ opStack, vec ++ term_output t))
  /\ (forall f, factor_wf f = true -> forall opStack vec,
     postfix_loop (factor_tokens f) (opStack, vec)
     = Returns (opStack, vec ++ factor_postfix f)).
Proof.
  apply expr_term_factor_ind.
  - (* a term as an expression *)
    intros t IH Hwf opStack vec Hs. simpl in *. apply IH; [exact Hwf|].
    destruct opStack; simpl in *; [exact I | lia].
  - (* e o t *)
    intros e IHe o t IHt Hwf opStack vec Hs. simpl in Hwf.
    apply andb_true_iff in Hwf as [Hwe Hwt].
    destruct (addop_token_facts o) as (O1 & O2 & O3 & O4).
    cbn [expr_tokens]. rewrite postfix_loop_app, (IHe Hwe _ _ Hs).
    cbn [mbind behaviour_bind postfix_loop].
    rewrite (postfix_step_operator _ _ _ O1 O2 O3).
    destruct (moved_left_by_app (addop_token o) (expr_pending e) opStack) as [-> ->].
    { rewrite O4. apply expr_pending_precedence. }
    { now rewrite O4. }
    cbn [mbind behaviour_bind]. rewrite IHt; [|exact Hwt|simpl; rewrite O4; lia].
    cbn [expr_pending expr_output]. f_equal. f_equal.
    + now rewrite <- app_assoc.
    + now rewrite expr_postfix_split, <- !app_assoc.
  - (* a factor as a term *)
    intros f IH Hwf opStack vec _. simpl in *. now apply IH.
  - (* t o f *)
    intros t IHt o f IHf Hwf opStack vec Hs. simpl in Hwf.
    apply andb_true_iff in Hwf as [Hwt Hwf].
    destruct (mulop_token_facts o) as (O1 & O2 & O3 & O4).
    cbn [term_tokens]. rewrite postfix_loop_app, (IHt Hwt _ _ Hs).
    cbn [mbind behaviour_bind postfix_loop].
    rewrite (postfix_step_operator _ _ _ O1 O2 O3).
    destruct (moved_left_by_app (mulop_token o) (term_pending t) opStack) as [-> ->].
    { rewrite O4. eapply Forall_impl; [apply term_pending_precedence|]. simpl. lia. }
    { now rewrite O4. }
    cbn [mbind behaviour_bind]. rewrite (IHf Hwf).
    cbn [term_pending term_output]. f_equal. f_equal.
    now rewrite term_postfix_split, <- !app_assoc.
  - (* a number *)
    intros s Hwf opStack vec. cbn [factor_wf] in Hwf.
    cbn [factor_tokens postfix_loop factor_postfix].
    now rewrite (postfix_step_number _ _ _ Hwf).
  - (* ( e ) *)
    intros e IH Hwf opStack vec. simpl in Hwf.
    cbn [factor_tokens postfix_loop]. rewrite postfix_step_open.
    cbn [mbind behaviour_bind]. rewrite postfix_loop_app.
    rewrite (IH Hwf); [|simpl; change (getPrecedence "(") with 0; lia].
    cbn [mbind behaviour_bind postfix_loop].
    rewrite postfix_step_close by apply expr_pending_not_open.
    cbn [mbind behaviour_bind factor_postfix].
    now rewrite expr_postfix_split, <- !app_assoc.
Qed.

(** The converter returns the postfix form of a well-formed expression. *)
Lemma to_postfix_expr (e : expr) :
  expr_wf e = true -> to_postfix (expr_tokens e) = Returns (expr_postfix e).
Proof.
  intros Hwf. unfold to_postfix.
  rewrite (proj1 postfix_loop_expr_term_factor e Hwf [] []) by exact I.
  cbn [mbind behaviour_bind]. now rewrite app_nil_r, expr_postfix_split.
Qed.

(** ** Tree building *)

Lemma build_loop_app (a b : list string) (nodeStack : list TreeNode) :
  build_loop (a ++ b) nodeStack = st ← build_loop a nodeStack; build_loop b st.
Proof.
  revert nodeStack. induction a as [|tok a IH]; intros ns; simpl; [reflexivity|].
  destruct (build_step ns tok) as [st| |]; simpl; [apply IH | reflexivity ..].
Qed.

Lemma build_step_number (nodeStack : list TreeNode) (s : string) :
  is_number s = true ->
  build_step nodeStack s = Returns (TreeNode_of_int (to_number s) :: nodeStack).
Proof. intros H. unfold build_step. now rewrite H. Qed.

Lemma build_step_addop (o : addop) (l r : TreeNode) (nodeStack : list TreeNode) :
  build_step (r :: l :: nodeStack) (addop_token o)
  = Returns (binary (addop_operator o) l r :: nodeStack).
Proof. now destruct o. Qed.

Lemma build_step_mulop (o : mulop) (l r : TreeNode) (nodeStack : list TreeNode) :
  build_step (r :: l :: nodeStack) (mulop_token o)
  = Returns (binary (mulop_operator o) l r :: nodeStack).
Proof. now destruct o. Qed.

(** The postfix form of an expression pushes the tree of the expression. *)
Lemma build_loop_expr_term_factor :
  (forall e, expr_wf e = true -> forall nodeStack,
     build_loop (expr_postfix e) nodeStack = Returns (expr_tree e :: nodeStack))
  /\ (forall t, term_wf t = true -> forall nodeStack,
     build_loop (term_postfix t) nodeStack = Returns (term_tree t :: nodeStack))
  /\ (forall f, factor_wf f = true -> forall nodeStack,
     build_loop (factor_postfix f) nodeStack = Returns (factor_tree f :: nodeStack)).
Proof.
  apply expr_term_factor_ind.
  - intros t IH Hwf ns. now apply IH.
  - intros e IHe o t IHt Hwf ns. cbn [expr_wf] in Hwf.
    apply andb_true_iff in Hwf as [Hwe Hwt]. cbn [expr_postfix expr_tree].
    rewrite build_loop_app, (IHe Hwe). cbn [mbind behaviour_bind].
    rewrite build_loop_app, (IHt Hwt). cbn [mbind behaviour_bind build_loop].
    now rewrite build_step_addop.
  - intros f IH Hwf ns. now apply IH.
  - intros t IHt o f IHf Hwf ns. cbn [term_wf] in Hwf.
    apply andb_true_iff in Hwf as [Hwt Hwf]. cbn [term_postfix term_tree].
    rewrite build_loop_app, (IHt Hwt). cbn [mbind behaviour_bind].
    rewrite build_loop_app, (IHf Hwf). cbn [mbind behaviour_bind build_loop].
    now rewrite build_step_mulop.
  - intros s Hwf ns. cbn [factor_wf] in Hwf.
    cbn [factor_postfix factor_tree build_loop]. now rewrite build_step_number.
  - intros e IH Hwf ns. now apply IH.
Qed.

(** [buildTree] returns the tree of a well-formed expression. *)
Lemma buildTree_expr (e : expr) :
  expr_wf e = true ->
  buildTree (expr_tokens e) = Returns (ExprTree_of (Some (expr_tree e))).
Proof.
  intros Hwf. unfold buildTree. rewrite (to_postfix_expr e Hwf).
  cbn [mbind behaviour_bind].
  now rewrite (proj1 build_loop_expr_term_factor e Hwf []).
Qed.

(** ** Evaluation of the tree of an expression *)

Lemma wrap_in_int (z : Z) : in_int z = true -> wrap z = z.
Proof.
  unfold in_int, wrap, INT_MIN, INT_MAX. intros H.
  apply andb_true_iff in H as [H1 H2]. apply Z.leb_le in H1, H2.
  rewrite Z.mod_small by lia. lia.
Qed.

Lemma evaluate_binary (op : Operator) (l r : TreeNode) :
  arithmetic op = true ->
  evaluate_at (binary op l r) =
  a ← evaluate_at l; b ← evaluate_at r;
  match op with
  | Plus => Returns (int_add a b)
  | Minus => Returns (int_sub a b)
  | Times => Returns (int_mul a b)
  | _ => int_div a b
  end.
Proof. intros H. exact (evaluate_arithmetic op 0 (Some l) (Some r) H). Qed.

Lemma evaluate_expr_term_factor :
  (forall e v, expr_in_int e = true -> expr_value e = Some v ->
     evaluate_at (expr_tree e) = Returns v)
  /\ (forall t v, term_in_int t = true -> term_value t = Some v ->
     evaluate_at (term_tree t) = Returns v)
  /\ (forall f v, factor_in_int f = true -> factor_value f = Some v ->
     evaluate_at (factor_tree f) = Returns v).
Proof.
  apply expr_term_factor_ind.
  - intros t IH v Hin Hv. now apply IH.
  - intros e IHe o t IHt v Hin Hv. cbn [expr_in_int] in Hin.
    apply andb_true_iff in Hin as [Hin Hres]. apply andb_true_iff in Hin as [Hie Hit].
    rewrite Hv in Hres. cbn [expr_value] in Hv.
    destruct (expr_value e) as [a|]; [|discriminate].
    destruct (term_value t) as [b|]; [|discriminate].
    injection Hv as <-. cbn [expr_tree].
    rewrite evaluate_binary by now destruct o.
    rewrite (IHe a Hie eq_refl), (IHt b Hit eq_refl). cbn [mbind behaviour_bind].
    simpl in Hres. destruct o; simpl; unfold int_add, int_sub; now rewrite wrap_in_int.
  - intros f IH v Hin Hv. now apply IH.
  - intros t IHt o f IHf v Hin Hv. cbn [term_in_int] in Hin.
    apply andb_true_iff in Hin as [Hin Hres]. apply andb_true_iff in Hin as [Hit Hif].
    rewrite Hv in Hres. cbn [term_value] in Hv.
    destruct (term_value t) as [a|]; [|discriminate].
    destruct (factor_value f) as [b|]; [|discriminate].
    cbn [term_tree]. rewrite evaluate_binary by now destruct o.
    rewrite (IHt a Hit eq_refl), (IHf b Hif eq_refl). cbn [mbind behaviour_bind].
    simpl in Hres. destruct o; simpl in Hv |- *.
    + injection Hv as <-. unfold int_mul. now rewrite wrap_in_int.
    + unfold int_div. destruct (Z.eqb_spec b 0) as [|Hb]; [discriminate|].
      injection Hv as <-. simpl.
      destruct (Z.eqb_spec a INT_MIN) as [->|]; [|reflexivity].
      destruct (Z.eqb_spec b (-1)) as [->|]; [|reflexivity].
      discriminate Hres.
  - intros s v Hin Hv. cbn [factor_in_int factor_value] in *.
    injection Hv as <-. cbn [factor_tree]. simpl. unfold to_number.
    now rewrite wrap_in_int.
  - intros e IH v Hin Hv. now apply IH.
Qed.

(** C1, as the source has it: for a well-formed expression whose numbers and
    intermediate results are all representable as [int] and that divides by
    no zero, building the tree of its token sequence and evaluating it
    returns the value of the expression under the standard precedence, with
    operators of equal precedence grouped from the left and division
    truncating towards zero. *)
Theorem evaluate_buildTree_correct (e : expr) (v : Z) :
  expr_wf e = true ->
  expr_value e = Some v ->
  expr_in_int e = true ->
  (buildTree (expr_tokens e) ≫= evaluateWholeTree) = Returns v.
Proof.
  intros Hwf Hv Hin. rewrite (buildTree_expr e Hwf). cbn [mbind behaviour_bind].
  exact (proj1 evaluate_expr_term_factor e v Hin Hv).
Qed.

Lemma evaluate_buildTree_correct_witness :
  (buildTree (tokenise "2*(3+4)-7/2") ≫= evaluateWholeTree) = Returns 11.
Proof.
  apply (evaluate_buildTree_correct
           (EAdd
              (ETerm
                 (TMul (TFactor (FNumber "2")) OpTimes
                    (FParen
                       (EAdd (ETerm (TFactor (FNumber "3"))) OpPlus
                          (TFactor (FNumber "4"))))))
              OpMinus
              (TMul (TFactor (FNumber "7")) OpDivide (FNumber "2")))
           11); reflexivity.
Defined.

(** C1, as stated, fails on "2147483647+1": the expression is well formed
    and its value is 2147483648, which the evaluation does not return; the
    addition on [int] gives -2147483648. *)
Lemma evaluate_buildTree_overflow :
  let e := EAdd (ETerm (TFactor (FNumber "2147483647"))) OpPlus
             (TFactor (FNumber "1")) in
  expr_wf e = true
  /\ expr_tokens e = tokenise "2147483647+1"
  /\ expr_value e = Some 2147483648
  /\ (buildTree (expr_tokens e) ≫= evaluateWholeTree) = Returns (-2147483648)
  /\ (buildTree (expr_tokens e) ≫= evaluateWholeTree) <> Returns 2147483648.
Proof. repeat split; try reflexivity. discriminate. Qed.

(** ** The size of a tree *)









(** ** Malformed token sequences *)

Lemma opens_cons (t : string) (opStack : list string) :
  opens (t :: opStack) = ((if (t =? "(")%string then 1 else 0) + opens opStack)%nat.
Proof.
  unfold opens. rewrite filter_cons.
  destruct (String.eqb_spec t "(") as [->|Hne].
  - now destruct (decide ("(" = "(")).
  - now destruct (decide (t = "(")).
Qed.

Lemma drain_to_open_none (opStack vec : list string) :
  opens opStack = 0%nat -> drain_to_open opStack vec = Undefined EmptyStackAccess.
Proof.
  revert vec. induction opStack as [|t rest IH]; intros vec H; [reflexivity|].
  rewrite opens_cons in H. simpl.
  destruct (t =? "(")%string; [discriminate H | now apply IH].
Qed.

Lemma drain_to_open_some (opStack vec : list string) (d : nat) :
  opens opStack = S d ->
  exists rest vec', drain_to_open opStack vec = Returns ("(" :: rest, vec')
                    /\ opens rest = d.
Proof.
  revert vec. induction opStack as [|t rest IH]; intros vec H; [discriminate H|].
  rewrite opens_cons in H. simpl.
  destruct (String.eqb_spec t "(") as [->|Hne].
  - exists rest, vec. split; [reflexivity|]. simpl in H. lia.
  - now apply IH.
Qed.

Lemma getPrecedence_open (tok : string) :
  tok <> "(" -> 1 <= getPrecedence tok.
Proof.
  intros H. apply String.eqb_neq in H. unfold getPrecedence. rewrite H.
  repeat match goal with |- context [if ?b then _ else _] => destruct b end; lia.
Qed.

Lemma opens_left_by (tok : string) (opStack : list string) :
  tok <> "(" -> opens (left_by tok opStack) = opens opStack.
Proof.
  intros H. pose proof (getPrecedence_open tok H) as Hp.
  induction opStack as [|t rest IH]; [reflexivity|]. simpl.
  rewrite Z.geb_leb. destruct (Z.leb_spec (getPrecedence tok) (getPrecedence t)) as [Hle|Hlt].
  - rewrite IH, opens_cons.
    destruct (String.eqb_spec t "(") as [->|]; [|reflexivity].
    change (getPrecedence "(") with 0 in Hle. lia.
  - reflexivity.
Qed.

(** A closing parenthesis that finds no opening one on the stack empties the
    stack and then asks for its top. *)
Lemma postfix_loop_unmatched_close (tokens : list string) :
  forall opStack vec,
    unmatched_close (opens opStack) tokens = true ->
    postfix_loop tokens (opStack, vec) = Undefined EmptyStackAccess.
Proof.
  induction tokens as [|tok rest IH]; intros opStack vec H; [discriminate H|].
  cbn [unmatched_close] in H. cbn [postfix_loop].
  destruct (String.eqb_spec tok "(") as [->|Hopen].
  - rewrite postfix_step_open. cbn [mbind behaviour_bind]. apply IH.
    now rewrite opens_cons.
  - destruct (String.eqb_spec tok ")") as [->|Hclose].
    + unfold postfix_step.
      change ((")" =? "(")%string) with false. change ((")" =? ")")%string) with true.
      cbv iota. destruct (opens opStack) as [|d] eqn:Hd.
      * now rewrite drain_to_open_none.
      * destruct (drain_to_open_some opStack vec d Hd) as (st & vec' & -> & Hst).
        cbn [mbind behaviour_bind pop]. apply IH. now rewrite Hst.
    + destruct (is_number tok) eqn:Hnum.
      * rewrite postfix_step_number by exact Hnum. cbn [mbind behaviour_bind].
        now apply IH.
      * rewrite postfix_step_operator by assumption. cbn [mbind behaviour_bind].
        apply IH. rewrite opens_cons, opens_left_by by exact Hopen.
        apply String.eqb_neq in Hopen. now rewrite Hopen.
Qed.

Lemma build_step_underflow (nodeStack : list TreeNode) (tok : string) :
  is_number tok = false -> (length nodeStack < 2)%nat ->
  build_step nodeStack tok = Undefined EmptyStackAccess.
Proof.
  intros Hnum Hlen. unfold build_step. rewrite Hnum.
  destruct nodeStack as [|r [|l rest]]; [reflexivity | reflexivity | simpl in Hlen; lia].
Qed.

(** Neither the conversion nor the tree building signals an error. *)
Lemma bind_never_throws {A B} (m : behaviour A) (f : A -> behaviour B) :
  never_throws m -> (forall a, never_throws (f a)) -> never_throws (m ≫= f).
Proof.
  intros Hm Hf e. destruct m as [a|e'|u]; simpl;
    [apply Hf | intros [= ->]; now apply (Hm e) | discriminate].
Qed.

Lemma drain_to_open_never_throws (opStack vec : list string) :
  never_throws (drain_to_open opStack vec).
Proof.
  revert vec. induction opStack as [|t rest IH]; intros vec e; simpl; [discriminate|].
  destruct (t =? "(")%string; [discriminate | apply IH].
Qed.

Lemma postfix_step_never_throws (st : list string * list string) (tok : string) :
  never_throws (postfix_step st tok).
Proof.
  destruct st as [opStack vec]. unfold postfix_step.
  destruct (tok =? "(")%string; [discriminate|].
  destruct (tok =? ")")%string.
  - apply bind_never_throws; [apply drain_to_open_never_throws|].
    intros [st1 vec1]. apply bind_never_throws; [destruct st1; discriminate|].
    discriminate.
  - destruct (is_number tok); [discriminate|].
    destruct (drain_higher tok opStack vec). discriminate.
Qed.

Lemma postfix_loop_never_throws (tokens : list string)
  (st : list string * list string) :
  never_throws (postfix_loop tokens st).
Proof.
  revert st. induction tokens as [|tok rest IH]; intros st; simpl; [discriminate|].
  apply bind_never_throws; [apply postfix_step_never_throws | exact IH].
Qed.

Lemma to_postfix_never_throws (tokens : list string) :
  never_throws (to_postfix tokens).
Proof.
  apply bind_never_throws; [apply postfix_loop_never_throws|].
  intros [st vec]. discriminate.
Qed.

Lemma build_step_never_throws (nodeStack : list TreeNode) (tok : string) :
  never_throws (build_step nodeStack tok).
Proof.
  unfold build_step. destruct (is_number tok); [discriminate|].
  destruct nodeStack as [|r [|l rest]]; discriminate.
Qed.

Lemma build_loop_never_throws (postfix : list string) (nodeStack : list TreeNode) :
  never_throws (build_loop postfix nodeStack).
Proof.
  revert nodeStack. induction postfix as [|tok rest IH]; intros ns; simpl; [discriminate|].
  apply bind_never_throws; [apply build_step_never_throws | exact IH].
Qed.

Lemma buildTree_never_throws (tokens : list string) :
  never_throws (buildTree tokens).
Proof.
  apply bind_never_throws; [apply to_postfix_never_throws|]. intros postfix.
  apply bind_never_throws; [apply build_loop_never_throws|].
  intros [|n ns]; discriminate.
Qed.

(** C4, as the source has it: a closing parenthesis with no opening one
    before it makes [to_postfix], and with it [buildTree], ask for the top of
    an empty stack, and so does in [buildTree] a token that is not a number
    and finds fewer than two nodes on the stack; this has no defined
    behaviour in the source and is no [MalformedExpression] error.  The
    source reports no malformed sequence: two numbers in a row are accepted
    and give the tree of the second one. *)
Theorem malformed_tokens_undefined (tokens : list string) :
  unmatched_close 0 tokens = true ->
  to_postfix tokens = Undefined EmptyStackAccess
  /\ buildTree tokens = Undefined EmptyStackAccess
  /\ (forall nodeStack tok,
        is_number tok = false -> (length nodeStack < 2)%nat ->
        build_step nodeStack tok = Undefined EmptyStackAccess)
  /\ (forall x o,
        is_number x = true -> is_operator o = true ->
        buildTree [x; o] = Undefined EmptyStackAccess)
  /\ (forall x y,
        is_number x = true -> is_number y = true ->
        buildTree [x; y]
        = Returns (ExprTree_of (Some (TreeNode_of_int (to_number y)))))
  /\ (forall any, never_throws (to_postfix any) /\ never_throws (buildTree any)).
Proof.
  intros H.
  assert (Hpost : to_postfix tokens = Undefined EmptyStackAccess).
  { unfold to_postfix. now rewrite (postfix_loop_unmatched_close tokens [] []). }
  split; [exact Hpost|]. split; [unfold buildTree; now rewrite Hpost|].
  split; [exact build_step_underflow|]. split; [|split].
  - intros x o Hx Ho.
    assert (Hop : o <> "(" /\ o <> ")" /\ is_number o = false).
    { unfold is_operator in Ho.
      repeat (apply orb_true_iff in Ho as [Ho | Ho]);
        apply String.eqb_eq in Ho; subst o; repeat split; discriminate. }
    destruct Hop as (O1 & O2 & O3).
    unfold buildTree, to_postfix. cbn [postfix_loop].
    rewrite (postfix_step_number [] [] x Hx). cbn [mbind behaviour_bind].
    rewrite (postfix_step_operator o [] _ O1 O2 O3). cbn [mbind behaviour_bind left_by moved_by app build_loop].
    rewrite (build_step_number [] x Hx). cbn [mbind behaviour_bind].
    rewrite (build_step_underflow _ o O3) by (simpl; lia). reflexivity.
  - intros x y Hx Hy. unfold buildTree, to_postfix. cbn [postfix_loop].
    rewrite (postfix_step_number [] [] x Hx). cbn [mbind behaviour_bind].
    rewrite (postfix_step_number [] _ y Hy). cbn [mbind behaviour_bind app build_loop].
    rewrite (build_step_number [] x Hx). cbn [mbind behaviour_bind].
    now rewrite (build_step_number _ y Hy).
  - intros any. split; [apply to_postfix_never_throws | apply buildTree_never_throws].
Qed.

Lemma malformed_tokens_undefined_witness :
  to_postfix (tokenise "(1+2))*3") = Undefined EmptyStackAccess
  /\ buildTree (tokenise "(1+2))*3") = Undefined EmptyStackAccess.
Proof.
  split; apply (malformed_tokens_undefined (tokenise "(1+2))*3")); reflexivity.
Defined.

(** C4, as stated, fails: on a closing parenthesis alone and on "1+" the
    conversion and the tree building end in no [MalformedExpression] error,
    and on "1(2)" [buildTree] returns a tree. *)
Lemma malformed_tokens_not_signalled :
  to_postfix (tokenise ")") = Undefined EmptyStackAccess
  /\ to_postfix (tokenise ")") <> Throws MalformedExpression
  /\ buildTree (tokenise "1+") = Undefined EmptyStackAccess
  /\ buildTree (tokenise "1+") <> Throws MalformedExpression
  /\ to_postfix (tokenise "1(2)") = Returns ["1"; "2"]
  /\ buildTree (tokenise "1(2)") = Returns (ExprTree_of (Some (TreeNode_of_int 2)))
  /\ buildTree (tokenise "1(2)") <> Throws MalformedExpression.
Proof. repeat split; try reflexivity; discriminate. Qed.

(** ** Numerals *)

Lemma string_of_uint_digits (d : Decimal.uint) :
  Forall (fun c => isdigit c = true)
         (list_ascii_of_string (NilEmpty.string_of_uint d)).
Proof. induction d; simpl; constructor; auto. Qed.

Lemma atoi_digits_pos (d : Decimal.uint) (acc : positive) :
  atoi_digits (Z.pos acc) (NilEmpty.string_of_uint d)
  = Z.pos (Pos.of_uint_acc d acc).
Proof.
  revert acc. induction d; intros acc; cbn [NilEmpty.string_of_uint atoi_digits Pos.of_uint_acc];
    [reflexivity | ..];
    cbn [isdigit]; rewrite <- IHd; f_equal; unfold digit_value; simpl; lia.
Qed.

Lemma atoi_digits_zero (d : Decimal.uint) :
  atoi_digits 0 (NilEmpty.string_of_uint d) = Z.of_N (Pos.of_uint d).
Proof.
  induction d; cbn [NilEmpty.string_of_uint atoi_digits Pos.of_uint];
    [reflexivity | exact IHd | ..];
    cbn [isdigit];
    match goal with
    | |- atoi_digits ?a _ = _ =>
        let a' := eval compute in a in change a with a'
    end;
    now rewrite atoi_digits_pos.
Qed.

Lemma int_to_string_nonneg (v : Z) :
  0 <= v ->
  exists d, d <> Decimal.Nil
            /\ int_to_string v = NilEmpty.string_of_uint d
            /\ Z.of_N (Pos.of_uint d) = v.
Proof.
  intros Hv. unfold int_to_string. destruct v as [|p|p]; [| |lia].
  - exists (Decimal.D0 Decimal.Nil). repeat split. discriminate.
  - exists (Pos.to_uint p). split; [apply DecimalPos.Unsigned.to_uint_nonnil|]. split.
    + simpl. unfold NilZero.string_of_uint.
      pose proof (DecimalPos.Unsigned.to_uint_nonnil p). now destruct (Pos.to_uint p).
    + now rewrite DecimalPos.Unsigned.of_to.
Qed.

Lemma is_number_int_to_string (v : Z) :
  0 <= v -> is_number (int_to_string v) = true.
Proof.
  intros Hv. destruct (int_to_string_nonneg v Hv) as (d & Hd & -> & _).
  apply is_number_spec. split; [|apply string_of_uint_digits].
  now destruct d.
Qed.

Lemma decimal_int_to_string (v : Z) :
  0 <= v -> decimal (int_to_string v) = v.
Proof.
  intros Hv. destruct (int_to_string_nonneg v Hv) as (d & Hd & -> & <-).
  apply atoi_digits_zero.
Qed.

(** Reading back the numeral of a non-negative [int]. *)
Lemma to_number_int_to_string (v : Z) :
  0 <= v <= INT_MAX -> to_number (int_to_string v) = v.
Proof.
  intros Hv. unfold to_number. fold (decimal (int_to_string v)).
  rewrite decimal_int_to_string by lia. apply wrap_in_int.
  unfold in_int, INT_MIN, INT_MAX in *. apply andb_true_iff. split; apply Z.leb_le; lia.
Qed.

(** ** Tokenising a rendering *)

Lemma string_app_cons (c : ascii) (a b : string) :
  String c a +:+ b = String c (a +:+ b).
Proof. reflexivity. Qed.

Lemma string_app_nil_r (s : string) : s +:+ "" = s.
Proof.
  induction s as [|c s IH]; [reflexivity | now rewrite string_app_cons, IH].
Qed.

Lemma string_app_assoc (a b c : string) : (a +:+ b) +:+ c = a +:+ (b +:+ c).
Proof.
  induction a as [|x a IH]; [reflexivity | now rewrite !string_app_cons, IH].
Qed.

Lemma tokenise_from_app (a b : string) (vec : list string) :
  tokenise_from vec (a +:+ b) = tokenise_from (tokenise_from vec a) b.
Proof.
  revert vec. induction a as [|c a IH]; intros vec; [reflexivity|].
  rewrite string_app_cons. simpl. apply IH.
Qed.


(** A character that starts a new token. *)
Lemma tokenise_step_push (vec : list string) (c : ascii) :
  Ascii.eqb c " " = false ->
  isdigit c = false \/ no_number_last vec ->
  tokenise_step vec c = vec ++ [char_to_string c].
Proof.
  intros Hc H. destruct vec as [|t vec _] using rev_ind.
  - now apply tokenise_step_nil.
  - rewrite tokenise_step_snoc by exact Hc.
    destruct H as [H | H].
    + rewrite H. simpl. now rewrite <- app_assoc.
    + unfold no_number_last in H. rewrite last_snoc in H. rewrite H, andb_false_r.
      now rewrite <- app_assoc.
Qed.

Lemma tokenise_from_digits (s : string) (vec : list string) (t : string) :
  is_number t = true ->
  Forall (fun c => isdigit c = true) (list_ascii_of_string s) ->
  tokenise_from (vec ++ [t]) s = vec ++ [t +:+ s].
Proof.
  revert t. induction s as [|c s IH]; intros t Ht Hs; simpl.
  - now rewrite string_app_nil_r.
  - simpl in Hs. inversion Hs as [|? ? Hc Hs']; subst.
    rewrite tokenise_step_snoc by now apply isdigit_not_space.
    rewrite Hc, Ht. simpl. rewrite IH; [|now apply is_number_snoc | exact Hs'].
    now rewrite string_app_assoc.
Qed.

(** A numeral after a token that is not a number is one token. *)
Lemma tokenise_from_number (s : string) (vec : list string) :
  is_number s = true -> no_number_last vec ->
  tokenise_from vec s = vec ++ [s].
Proof.
  intros Hs Hvec. apply is_number_spec in Hs as [Hne Hd].
  destruct s as [|c s]; [now destruct Hne|]. simpl in Hd.
  inversion Hd as [|? ? Hc Hs']; subst. simpl.
  rewrite tokenise_step_push; [|now apply isdigit_not_space | now right].
  rewrite tokenise_from_digits; [reflexivity | now rewrite is_number_char | exact Hs'].
Qed.








(** ** Reading a rendering back *)









(** ** The renderers and the nodes in memory *)

Lemma bind_Returns_inv {A B} (m : behaviour A) (f : A -> behaviour B) (b : B) :
  (m ≫= f) = Returns b -> exists a, m = Returns a /\ f a = Returns b.
Proof. destruct m as [a| |]; simpl; [now exists a | discriminate ..]. Qed.

Lemma load_Returns_inv (h : gmap positive Store.cell) (p : option positive)
  (c : Store.cell) :
  Store.load h p = Returns c -> exists a, p = Some a /\ h !! a = Some c.
Proof.
  destruct p as [a|]; simpl; [|discriminate].
  destruct (h !! a) as [c'|] eqn:E; [|discriminate].
  intros [= ->]. now exists a.
Qed.

Lemma ExprTree_of_root (fuel : nat) (h : gmap positive Store.cell)
  (r : option positive) (t : Store.object) :
  Store.ExprTree_of fuel h r = Returns t -> Store.root t = r.
Proof.
  unfold Store.ExprTree_of. intros H.
  apply bind_Returns_inv in H as (n & _ & [= <-]). reflexivity.
Qed.

(** What [delete] returns no longer holds the node. *)
Lemma delete_node_released (deep : bool) (fuel : nat)
  (h h' : gmap positive Store.cell) (a : positive) :
  Store.delete_node deep fuel h (Some a) = Returns h' -> h' !! a = None.
Proof.
  destruct fuel as [|fuel]; [discriminate|]. cbn [Store.delete_node].
  intros H. apply bind_Returns_inv in H as (c & _ & H).
  apply bind_Returns_inv in H as (h2 & _ & [= <-]).
  apply lookup_delete_eq.
Qed.

(** A renderer that returns from an arithmetic node has deleted the left
    child of the node. *)
Lemma prefixOrder_deletes_left (deep : bool) (fuel : nat)
  (h h' : gmap positive Store.cell) (t : Store.object) (c : Store.cell)
  (s : string) :
  Store.load h (Store.root t) = Returns c ->
  arithmetic (Store.cell_op c) = true ->
  Store.prefixOrder deep fuel h t = Returns (s, h') ->
  exists a, Store.cell_left c = Some a /\ is_Some (h !! a) /\ h' !! a = None.
Proof.
  intros Hload Hop H. destruct fuel as [|fuel]; [discriminate H|].
  cbn [Store.prefixOrder] in H. rewrite Hload in H. cbn [mbind behaviour_bind] in H.
  destruct (Store.cell_op c); try discriminate Hop.
  all: apply bind_Returns_inv in H as (tl & Htl & H);
    apply ExprTree_of_root in Htl;
    apply bind_Returns_inv in H as ([sl h1] & Hl & H);
    apply bind_Returns_inv in H as (tr & _ & H);
    apply bind_Returns_inv in H as ([sr h2] & _ & H);
    apply bind_Returns_inv in H as (h3 & _ & H);
    apply bind_Returns_inv in H as (h4 & Hdel & [= _ <-]);
    (destruct fuel as [|fuel]; [discriminate Hl|]);
    cbn [Store.prefixOrder] in Hl;
    apply bind_Returns_inv in Hl as (cl & Hcl & _);
    apply load_Returns_inv in Hcl as (a & Ea & Ha);
    exists a; rewrite <- Htl, Ea; (split; [reflexivity|]);
    (split; [now exists cl|]);
    unfold Store.ExprTree_destroy in Hdel; rewrite Ea in Hdel;
    exact (delete_node_released _ _ _ _ _ Hdel).
Qed.

Lemma infixOrder_deletes_left (deep : bool) (fuel : nat)
  (h h' : gmap positive Store.cell) (t : Store.object) (c : Store.cell)
  (s : string) :
  Store.load h (Store.root t) = Returns c ->
  arithmetic (Store.cell_op c) = true ->
  Store.infixOrder deep fuel h t = Returns (s, h') ->
  exists a, Store.cell_left c = Some a /\ is_Some (h !! a) /\ h' !! a = None.
Proof.
  intros Hload Hop H. destruct fuel as [|fuel]; [discriminate H|].
  cbn [Store.infixOrder] in H. rewrite Hload in H. cbn [mbind behaviour_bind] in H.
  destruct (Store.cell_op c); try discriminate Hop.
  all: apply bind_Returns_inv in H as (tl & Htl & H);
    apply ExprTree_of_root in Htl;
    apply bind_Returns_inv in H as ([sl h1] & Hl & H);
    apply bind_Returns_inv in H as (tr & _ & H);
    apply bind_Returns_inv in H as ([sr h2] & _ & H);
    apply bind_Returns_inv in H as (h3 & _ & H);
    apply bind_Returns_inv in H as (h4 & Hdel & [= _ <-]);
    (destruct fuel as [|fuel]; [discriminate Hl|]);
    cbn [Store.infixOrder] in Hl;
    apply bind_Returns_inv in Hl as (cl & Hcl & _);
    apply load_Returns_inv in Hcl as (a & Ea & Ha);
    exists a; rewrite <- Htl, Ea; (split; [reflexivity|]);
    (split; [now exists cl|]);
    unfold Store.ExprTree_destroy in Hdel; rewrite Ea in Hdel;
    exact (delete_node_released _ _ _ _ _ Hdel).
Qed.

Lemma postfixOrder_deletes_left (deep : bool) (fuel : nat)
  (h h' : gmap positive Store.cell) (t : Store.object) (c : Store.cell)
  (s : string) :
  Store.load h (Store.root t) = Returns c ->
  arithmetic (Store.cell_op c) = true ->
  Store.postfixOrder deep fuel h t = Returns (s, h') ->
  exists a, Store.cell_left c = Some a /\ is_Some (h !! a) /\ h' !! a = None.
Proof.
  intros Hload Hop H. destruct fuel as [|fuel]; [discriminate H|].
  cbn [Store.postfixOrder] in H. rewrite Hload in H. cbn [mbind behaviour_bind] in H.
  destruct (Store.cell_op c); try discriminate Hop.
  all: apply bind_Returns_inv in H as (tl & Htl & H);
    apply ExprTree_of_root in Htl;
    apply bind_Returns_inv in H as ([sl h1] & Hl & H);
    apply bind_Returns_inv in H as (tr & _ & H);
    apply bind_Returns_inv in H as ([sr h2] & _ & H);
    apply bind_Returns_inv in H as (h3 & _ & H);
    apply bind_Returns_inv in H as (h4 & Hdel & [= _ <-]);
    (destruct fuel as [|fuel]; [discriminate Hl|]);
    cbn [Store.postfixOrder] in Hl;
    apply bind_Returns_inv in Hl as (cl & Hcl & _);
    apply load_Returns_inv in Hcl as (a & Ea & Ha);
    exists a; rewrite <- Htl, Ea; (split; [reflexivity|]);
    (split; [now exists cl|]);
    unfold Store.ExprTree_destroy in Hdel; rewrite Ea in Hdel;
    exact (delete_node_released _ _ _ _ _ Hdel).
Qed.

(** C9: on the tree that [buildTree] makes of "1+2", each renderer returns
    its string and leaves a memory that no longer holds the two children of
    the root: the temporaries made for the recursive calls have deleted
    them.  The root still points to them, so that a second rendering of the
    same tree uses deleted nodes.  This holds for either destructor of
    [TreeNode] and for every bound of four or more on the depth of the
    recursion. *)
Theorem renderers_delete_children (deep : bool) (k : nat) :
  let h := (Store.layout one_plus_two).1 in
  let t := (Store.layout one_plus_two).2 in
  let h' : gmap positive Store.cell :=
    {[ 3%positive := Store.Cell Plus 0 (Some 1%positive) (Some 2%positive) ]} in
  buildTree (tokenise "1+2") = Returns (ExprTree_of (Some one_plus_two))
  /\ h !! 1%positive = Some (Store.Cell Value 1 None None)
  /\ h !! 2%positive = Some (Store.Cell Value 2 None None)
  /\ h !! 3%positive = Some (Store.Cell Plus 0 (Some 1%positive) (Some 2%positive))
  /\ t = Store.Object (Some 3%positive) 3
  /\ Store.prefixOrder deep (4 + k) h t = Returns ("+ 1 2", h')
  /\ Store.infixOrder deep (4 + k) h t = Returns ("1 + 2", h')
  /\ Store.postfixOrder deep (4 + k) h t = Returns ("1 2 +", h')
  /\ h' !! 1%positive = None /\ h' !! 2%positive = None /\ h' <> h
  /\ Store.prefixOrder deep (4 + k) h' t = Undefined DanglingPointer
  /\ Store.infixOrder deep (4 + k) h' t = Undefined DanglingPointer
  /\ Store.postfixOrder deep (4 + k) h' t = Undefined DanglingPointer.
Proof.
  cbv zeta.
  assert (Hh : (Store.layout one_plus_two).1
               = <[3%positive := Store.Cell Plus 0 (Some 1%positive) (Some 2%positive)]>
                   (<[2%positive := Store.Cell Value 2 None None]>
                      (<[1%positive := Store.Cell Value 1 None None]> ∅)))
    by (vm_compute; reflexivity).
  assert (Ht : (Store.layout one_plus_two).2 = Store.Object (Some 3%positive) 3)
    by (vm_compute; reflexivity).
  rewrite Hh, Ht. change (4 + k)%nat with (S (S (S (S k)))).
  repeat split; try (destruct deep; vm_compute; reflexivity).
  intros E. apply (f_equal (fun m : gmap positive Store.cell => m !! 1%positive)) in E.
  vm_compute in E. discriminate E.
Qed.

(** With a destructor of [TreeNode] that leaves the children, a deeper tree
    is rendered as on the value and loses every node but its root; with one
    that deletes the children, a node is deleted twice. *)
Example render_deeper_tree (k : nat) :
  let h := (Store.layout one_plus_two_times_three).1 in
  let t := (Store.layout one_plus_two_times_three).2 in
  prefixOrder (ExprTree_of (Some one_plus_two_times_three)) = Returns "* + 1 2 3"
  /\ Store.prefixOrder false (5 + k) h t
     = Returns ("* + 1 2 3",
                {[ 5%positive := Store.Cell Times 0 (Some 3%positive) (Some 4%positive) ]})
  /\ Store.prefixOrder true (5 + k) h t = Undefined DanglingPointer.
Proof.
  cbv zeta. change (5 + k)%nat with (S (S (S (S (S k))))).
  repeat split; vm_compute; reflexivity.
Qed.

(** *** Proper trees in memory *)





















(** * Further properties of the functions *)

(** ** Numbers *)

(** X1: [is_number] accepts exactly the non-empty strings whose characters
    are all among the ten decimal digits; the empty string, signs, blanks
    and letters are refused. *)
Theorem is_number_iff_digits (s : string) :
  is_number s = true <->
  s <> "" /\ forall c, In c (list_ascii_of_string s) -> In c digits.
Proof.
  rewrite is_number_spec. split; intros [Hne H]; (split; [exact Hne|]).
  - intros c Hc. rewrite Forall_forall in H.
    assert (Hd : isdigit c = true) by (apply H; now apply list_elem_of_In).
    destruct c as [[] [] [] [] [] [] [] []]; try discriminate Hd;
      unfold digits; simpl; tauto.
  - apply Forall_forall. intros c Hc. apply list_elem_of_In in Hc.
    specialize (H c Hc). unfold digits in H. simpl in H.
    repeat (destruct H as [<- | H]; [reflexivity|]). destruct H.
Qed.

(** X2: the numeral that [to_string] makes of a non-negative [int] is a
    number for [is_number], and [to_number] reads it back as the same
    [int]. *)
Theorem to_number_to_string_round_trip (v : Z) :
  0 <= v <= INT_MAX ->
  is_number (int_to_string v) = true /\ to_number (int_to_string v) = v.
Proof.
  intros Hv. split; [apply is_number_int_to_string; lia|].
  now apply to_number_int_to_string.
Qed.

Lemma to_number_to_string_round_trip_witness :
  is_number (int_to_string 40215) = true /\ to_number (int_to_string 40215) = 40215.
Proof.
  apply (to_number_to_string_round_trip 40215). unfold INT_MAX. lia.
Defined.

(** ** The tokeniser and spaces *)

Lemma tokenise_from_remove_spaces (s : string) (vec : list string) :
  tokenise_from vec s = tokenise_from vec (remove_spaces s).
Proof.
  revert vec. induction s as [|c s IH]; intros vec; [reflexivity|].
  cbn [remove_spaces tokenise_from]. destruct (Ascii.eqb_spec c " ") as [->|Hc].
  - rewrite tokenise_step_space. apply IH.
  - cbn [tokenise_from]. apply IH.
Qed.

(** X3: space characters are invisible to [tokenise]: a string and the
    string without its spaces have the same tokens.  A space does therefore
    not end a number: the digits on its two sides make one token. *)
Theorem tokenise_ignores_spaces (s : string) :
  tokenise s = tokenise (remove_spaces s)
  /\ forall a b, is_number a = true -> is_number b = true ->
       tokenise (a +:+ " " +:+ b) = [a +:+ b].
Proof.
  split; [apply tokenise_from_remove_spaces|].
  intros a b Ha Hb. unfold tokenise.
  rewrite tokenise_from_app, (tokenise_from_number a [] Ha I).
  change (" " +:+ b) with (String " " b). cbn [tokenise_from app].
  rewrite tokenise_step_space.
  apply (tokenise_from_digits b [] a Ha). now apply is_number_spec.
Qed.

Lemma string_concat_cons (t : string) (l : list string) :
  String.concat "" (t :: l) = t +:+ String.concat "" l.
Proof.
  destruct l as [|u l]; [now rewrite string_app_nil_r | reflexivity].
Qed.

Lemma string_concat_snoc (l : list string) (t : string) :
  String.concat "" (l ++ [t]) = String.concat "" l +:+ t.
Proof.
  induction l as [|u l IH]; [reflexivity|].
  change ((u :: l) ++ [t]) with (u :: (l ++ [t])).
  now rewrite !string_concat_cons, IH, string_app_assoc.
Qed.

Lemma tokenise_step_concat (vec : list string) (c : ascii) :
  Ascii.eqb c " " = false ->
  String.concat "" (tokenise_step vec c)
  = String.concat "" vec +:+ char_to_string c.
Proof.
  intros Hc. destruct vec as [|t vec _] using rev_ind.
  - now rewrite tokenise_step_nil.
  - rewrite tokenise_step_snoc by exact Hc.
    destruct (isdigit c && is_number t).
    + now rewrite !string_concat_snoc, string_app_assoc.
    + change (vec ++ [t; char_to_string c]) with (vec ++ [t] ++ [char_to_string c]).
      now rewrite app_assoc, !string_concat_snoc.
Qed.

Lemma tokenise_from_concat (s : string) (vec : list string) :
  String.concat "" (tokenise_from vec s)
  = String.concat "" vec +:+ remove_spaces s.
Proof.
  revert vec. induction s as [|c s IH]; intros vec.
  - now rewrite string_app_nil_r.
  - cbn [tokenise_from remove_spaces]. rewrite IH.
    destruct (Ascii.eqb_spec c " ") as [->|Hc]; [now rewrite tokenise_step_space|].
    apply Ascii.eqb_neq in Hc. rewrite tokenise_step_concat by exact Hc.
    now rewrite string_app_assoc.
Qed.

(** X4: [tokenise] loses and reorders nothing but spaces: the tokens put
    together again are the input without its space characters. *)
Theorem tokenise_concat (s : string) :
  String.concat "" (tokenise s) = remove_spaces s.
Proof. apply (tokenise_from_concat s []). Qed.

(** ** The token sequences that the tokeniser makes *)

Lemma token_shape_class (t : string) :
  ~ has_space t -> token_shape t -> is_number t = true \/ is_symbol t = true.
Proof.
  intros Hsp [Hlen | Hn]; [|now left].
  destruct t as [|c [|d t]]; try discriminate Hlen.
  destruct (isdigit c) eqn:Hd.
  - left. change (String c "") with (char_to_string c).
    now rewrite is_number_char.
  - right. simpl. rewrite Hd. destruct (Ascii.eqb_spec c " ") as [->|]; [|reflexivity].
    exfalso. apply Hsp. now left.
Qed.

Lemma adjacent_numbers_snoc (vec : list string) (t : string) :
  adjacent_numbers (vec ++ [t])
  = adjacent_numbers vec
    || match last vec with
       | Some p => is_number p && is_number t
       | None => false
       end.
Proof.
  induction vec as [|a vec IH]; [reflexivity|].
  destruct vec as [|b vec].
  - simpl. now rewrite !orb_false_r.
  - change ((a :: b :: vec) ++ [t]) with (a :: ((b :: vec) ++ [t])).
    change (last (a :: b :: vec)) with (last (b :: vec)).
    cbn [adjacent_numbers app] in *. rewrite IH. now rewrite orb_assoc.
Qed.

Lemma tokenise_step_adjacent (vec : list string) (c : ascii) :
  adjacent_numbers vec = false -> adjacent_numbers (tokenise_step vec c) = false.
Proof.
  intros H. destruct (Ascii.eqb c " ") eqn:Hc.
  - apply Ascii.eqb_eq in Hc. subst c. exact H.
  - destruct vec as [|t vec _] using rev_ind.
    + now rewrite tokenise_step_nil.
    + rewrite tokenise_step_snoc by exact Hc.
      rewrite adjacent_numbers_snoc in H. apply orb_false_iff in H as [H1 H2].
      destruct (isdigit c && is_number t) eqn:E.
      * apply andb_true_iff in E as [Hd Hn].
        rewrite adjacent_numbers_snoc, H1. simpl.
        destruct (last vec) as [p|]; [|reflexivity].
        rewrite Hn in H2. rewrite (is_number_snoc t c Hn Hd). exact H2.
      * change (vec ++ [t; char_to_string c]) with (vec ++ [t] ++ [char_to_string c]).
        rewrite app_assoc, adjacent_numbers_snoc, last_snoc.
        rewrite adjacent_numbers_snoc, H1, H2. simpl.
        rewrite is_number_char. now rewrite andb_comm.
Qed.

Lemma tokenise_from_adjacent (s : string) (vec : list string) :
  adjacent_numbers vec = false -> adjacent_numbers (tokenise_from vec s) = false.
Proof.
  revert vec. induction s as [|c s IH]; intros vec H; [exact H|].
  apply IH, tokenise_step_adjacent, H.
Qed.

(** X5: in the sequence that [tokenise] returns every token is a number or
    a one-character symbol that is neither a digit nor a space, and no two
    numbers stand next to each other: a run of digits is always one
    token. *)
Theorem tokenise_maximal_numbers (s : string) :
  Forall (fun t => is_number t = true \/ is_symbol t = true) (tokenise s)
  /\ adjacent_numbers (tokenise s) = false.
Proof.
  split; [|now apply tokenise_from_adjacent].
  assert (Hshape : Forall token_shape (tokenise s))
    by (apply tokenise_from_shape; constructor).
  pose proof (tokenise_no_space s) as Hsp.
  rewrite Forall_forall in Hshape, Hsp. apply Forall_forall. intros t Ht.
  apply token_shape_class; [now apply Hsp | now apply Hshape].
Qed.

Lemma remove_spaces_app (a b : string) :
  remove_spaces (a +:+ b) = remove_spaces a +:+ remove_spaces b.
Proof.
  induction a as [|c a IH]; [reflexivity|].
  rewrite string_app_cons. cbn [remove_spaces].
  destruct (Ascii.eqb c " "); [exact IH | now rewrite string_app_cons, IH].
Qed.

Lemma remove_spaces_number (t : string) :
  is_number t = true -> remove_spaces t = t.
Proof.
  intros H. apply is_number_spec in H as [_ H].
  induction t as [|c t IH]; [reflexivity|]. simpl in H. inversion H; subst.
  cbn [remove_spaces]. rewrite isdigit_not_space by assumption. now rewrite IH.
Qed.

Lemma remove_spaces_token (t : string) :
  is_number t = true \/ is_symbol t = true -> remove_spaces t = t.
Proof.
  intros [H | H]; [now apply remove_spaces_number|].
  destruct t as [|c [|d t]]; try discriminate H. simpl in H.
  apply andb_true_iff in H as [H _]. apply negb_true_iff in H.
  cbn [remove_spaces]. now rewrite H.
Qed.

Lemma remove_spaces_unwords (tokens : list string) :
  Forall (fun t => is_number t = true \/ is_symbol t = true) tokens ->
  remove_spaces (String.concat " " tokens) = String.concat "" tokens.
Proof.
  induction 1 as [|t l Ht Hl IH]; [reflexivity|].
  rewrite string_concat_cons. destruct l as [|u l].
  - cbn [String.concat]. rewrite string_app_nil_r. now apply remove_spaces_token.
  - change (String.concat " " (t :: u :: l))
      with (t +:+ String " " (String.concat " " (u :: l))).
    rewrite remove_spaces_app. cbn [remove_spaces]. simpl Ascii.eqb. cbv iota.
    now rewrite IH, remove_spaces_token.
Qed.

Lemma tokenise_from_tokens (tokens : list string) :
  Forall (fun t => is_number t = true \/ is_symbol t = true) tokens ->
  adjacent_numbers tokens = false ->
  forall vec,
    (forall t rest, tokens = t :: rest -> is_number t = true -> no_number_last vec) ->
    tokenise_from vec (String.concat "" tokens) = vec ++ tokens.
Proof.
  induction 1 as [|t l Ht Hl IH]; intros Hadj vec Hvec.
  - now rewrite app_nil_r.
  - rewrite string_concat_cons, tokenise_from_app.
    assert (Hl' : adjacent_numbers l = false).
    { destruct l as [|u l]; [reflexivity|]. cbn [adjacent_numbers] in Hadj.
      now apply orb_false_iff in Hadj as [_ Hadj]. }
    assert (Hstep : tokenise_from vec t = vec ++ [t]).
    { destruct Ht as [Hn | Hs].
      - apply tokenise_from_number; [exact Hn|]. now apply (Hvec t l).
      - destruct t as [|c [|d t]]; try discriminate Hs. simpl in Hs.
        apply andb_true_iff in Hs as [Hc Hd].
        apply negb_true_iff in Hc, Hd. cbn [tokenise_from].
        apply tokenise_step_push; [exact Hc | now left]. }
    rewrite Hstep, (IH Hl' (vec ++ [t])); [now rewrite <- app_assoc|].
    intros u rest -> Hu. unfold no_number_last. rewrite last_snoc.
    cbn [adjacent_numbers] in Hadj. apply orb_false_iff in Hadj as [Hadj _].
    rewrite Hu, andb_true_r in Hadj. exact Hadj.
Qed.

(** X6: a sequence of numbers and one-character symbols in which no two
    numbers stand next to each other is what [tokenise] returns for its
    tokens written one after the other, with or without a space between
    them. *)
Theorem tokenise_unwords (tokens : list string) :
  Forall (fun t => is_number t = true \/ is_symbol t = true) tokens ->
  adjacent_numbers tokens = false ->
  tokenise (String.concat "" tokens) = tokens
  /\ tokenise (String.concat " " tokens) = tokens.
Proof.
  intros Hok Hadj.
  assert (H : tokenise (String.concat "" tokens) = tokens).
  { apply (tokenise_from_tokens tokens Hok Hadj []). intros; exact I. }
  split; [exact H|]. unfold tokenise in *.
  now rewrite tokenise_from_remove_spaces, remove_spaces_unwords.
Qed.

Lemma tokenise_unwords_witness :
  tokenise (String.concat "" ["("; "12"; "+"; "3"; ")"; "*"; "45"])
  = ["("; "12"; "+"; "3"; ")"; "*"; "45"]
  /\ tokenise (String.concat " " ["("; "12"; "+"; "3"; ")"; "*"; "45"])
     = ["("; "12"; "+"; "3"; ")"; "*"; "45"].
Proof.
  apply (tokenise_unwords ["("; "12"; "+"; "3"; ")"; "*"; "45"]).
  - repeat constructor; (left; reflexivity) || (right; reflexivity).
  - reflexivity.
Defined.

(** ** What the converter does with every token sequence *)

Lemma drain_to_open_inv (opStack vec opStack1 vec1 : list string) :
  drain_to_open opStack vec = Returns (opStack1, vec1) ->
  exists p rest,
    opStack = p ++ "(" :: rest /\ opStack1 = "(" :: rest
    /\ vec1 = vec ++ p /\ Forall (fun t => t <> "(") p.
Proof.
  revert vec. induction opStack as [|t st IH]; intros vec H; [discriminate H|].
  simpl in H. destruct (String.eqb_spec t "(") as [->|Hne].
  - injection H as <- <-. exists [], st. now rewrite app_nil_r.
  - destruct (IH _ H) as (p & rest & -> & -> & -> & Hp).
    exists (t :: p), rest. rewrite <- app_assoc. repeat split. now constructor.
Qed.

Lemma moved_by_not_open (tok : string) (opStack : list string) :
  tok <> "(" -> Forall (fun t => t <> "(") (moved_by tok opStack).
Proof.
  intros H. pose proof (getPrecedence_open tok H) as Hp.
  eapply Forall_impl; [apply moved_by_geq|].
  intros t Ht ->. simpl in Ht. change (getPrecedence "(") with 0 in Ht. lia.
Qed.

(** The four things that one token can make the converter do. *)
Lemma postfix_step_cases (opStack vec : list string) (tok : string)
  (opStack' vec' : list string) :
  postfix_step (opStack, vec) tok = Returns (opStack', vec') ->
  (tok = "(" /\ opStack' = "(" :: opStack /\ vec' = vec)
  \/ (tok = ")" /\ exists p, opStack = p ++ "(" :: opStack'
                            /\ vec' = vec ++ p /\ Forall (fun t => t <> "(") p)
  \/ (is_paren tok = false /\ is_number tok = true
      /\ opStack' = opStack /\ vec' = vec ++ [tok])
  \/ (is_paren tok = false /\ is_number tok = false
      /\ exists p l, opStack = p ++ l /\ opStack' = tok :: l
                     /\ vec' = vec ++ p /\ Forall (fun t => t <> "(") p).
Proof.
  intros H. destruct (String.eqb_spec tok "(") as [->|Hopen].
  - left. rewrite postfix_step_open in H. now injection H as <- <-.
  - destruct (String.eqb_spec tok ")") as [->|Hclose].
    + right. left. split; [reflexivity|]. unfold postfix_step in H.
      change ((")" =? "(")%string) with false in H.
      change ((")" =? ")")%string) with true in H. cbv iota in H.
      apply bind_Returns_inv in H as ([st1 vec1] & Hd & H).
      destruct (drain_to_open_inv _ _ _ _ Hd) as (p & rest & -> & -> & -> & Hp).
      cbn [pop mbind behaviour_bind] in H. injection H as <- <-. now exists p.
    + assert (Hparen : is_paren tok = false).
      { unfold is_paren. apply String.eqb_neq in Hopen, Hclose.
        now rewrite Hopen, Hclose. }
      right. right. destruct (is_number tok) eqn:Hnum.
      * left. rewrite postfix_step_number in H by exact Hnum.
        injection H as <- <-. now repeat split.
      * right. rewrite postfix_step_operator in H by assumption.
        injection H as <- <-. split; [exact Hparen|]. split; [reflexivity|].
        exists (moved_by tok opStack), (left_by tok opStack).
        split; [apply moved_left_by|]. split; [reflexivity|].
        split; [reflexivity | now apply moved_by_not_open].
Qed.

Lemma postfix_loop_cons_inv (tok : string) (rest : list string)
  (st st' : list string * list string) :
  postfix_loop (tok :: rest) st = Returns st' ->
  exists st1, postfix_step st tok = Returns st1 /\ postfix_loop rest st1 = Returns st'.
Proof. cbn [postfix_loop]. apply bind_Returns_inv. Qed.

Lemma numbers_of_not_number (l : list string) :
  Forall (fun t => is_number t = false) l -> numbers_of l = [].
Proof.
  unfold numbers_of. induction 1 as [|t l Ht Hl IH]; [reflexivity|].
  rewrite filter_cons. destruct (decide (is_number t = true)); [congruence | exact IH].
Qed.

Lemma numbers_of_app (a b : list string) :
  numbers_of (a ++ b) = numbers_of a ++ numbers_of b.
Proof. apply filter_app. Qed.

Lemma numbers_of_paren (tok : string) :
  is_number tok = false -> numbers_of [tok] = [].
Proof. intros H. apply numbers_of_not_number. now constructor. Qed.

Lemma postfix_loop_numbers (tokens : list string) :
  forall opStack vec opStack' vec',
    postfix_loop tokens (opStack, vec) = Returns (opStack', vec') ->
    Forall (fun t => is_number t = false) opStack ->
    Forall (fun t => is_number t = false) opStack'
    /\ numbers_of vec' = numbers_of vec ++ numbers_of tokens.
Proof.
  induction tokens as [|tok rest IH]; intros st vec st' vec' H Hst.
  - injection H as <- <-. split; [exact Hst | now rewrite app_nil_r].
  - apply postfix_loop_cons_inv in H as ([st1 vec1] & Hstep & H).
    assert (Hgoal : Forall (fun t => is_number t = false) st1
                    /\ numbers_of vec1 = numbers_of vec ++ numbers_of [tok]).
    { destruct (postfix_step_cases _ _ _ _ _ Hstep)
        as [(-> & -> & ->) | [(-> & p & -> & -> & Hp)
           | [(Hpar & Hnum & -> & ->) | (Hpar & Hnum & p & l & -> & -> & -> & Hp)]]].
      - split; [now constructor | now rewrite numbers_of_paren, app_nil_r].
      - apply Forall_app in Hst as [Hst1 Hst2]. inversion Hst2; subst.
        split; [assumption|].
        now rewrite numbers_of_app, (numbers_of_not_number p Hst1), numbers_of_paren.
      - split; [exact Hst | now rewrite numbers_of_app].
      - apply Forall_app in Hst as [Hst1 Hst2]. split; [now constructor|].
        now rewrite numbers_of_app, (numbers_of_not_number p Hst1), numbers_of_paren. }
    destruct Hgoal as [Hst1 Hvec1]. destruct (IH _ _ _ _ H Hst1) as [Hst' Hvec'].
    split; [exact Hst'|]. rewrite Hvec', Hvec1.
    change (tok :: rest) with ([tok] ++ rest).
    now rewrite numbers_of_app, <- app_assoc.
Qed.

(** X7: whatever the token sequence, when [to_postfix] returns, the numbers
    of its output are the numbers of the input in the same order: the
    conversion moves operators only. *)
Theorem to_postfix_keeps_numbers (tokens out : list string) :
  to_postfix tokens = Returns out ->
  numbers_of out = numbers_of tokens.
Proof.
  unfold to_postfix. intros H.
  apply bind_Returns_inv in H as ([st vec] & Hloop & H). injection H as <-.
  destruct (postfix_loop_numbers _ _ _ _ _ Hloop (Forall_nil_2 _)) as [Hst Hvec].
  rewrite numbers_of_app, (numbers_of_not_number st Hst), app_nil_r. exact Hvec.
Qed.

Lemma to_postfix_keeps_numbers_witness :
  numbers_of ["7"; "8"; "9"; "*"; "("; "+"] = numbers_of ["7"; "+"; "("; "8"; "*"; "9"].
Proof.
  apply (to_postfix_keeps_numbers ["7"; "+"; "("; "8"; "*"; "9"]). reflexivity.
Defined.

Lemma non_parens_app (a b : list string) :
  non_parens (a ++ b) = non_parens a ++ non_parens b.
Proof. apply filter_app. Qed.

Lemma non_parens_cons (t : string) (l : list string) :
  non_parens (t :: l) = (if is_paren t then [] else [t]) ++ non_parens l.
Proof.
  unfold non_parens. rewrite filter_cons.
  destruct (is_paren t); destruct (decide _); simpl; congruence.
Qed.

Lemma opens_app (a b : list string) : opens (a ++ b) = (opens a + opens b)%nat.
Proof. unfold opens. now rewrite filter_app, length_app. Qed.

Lemma closes_cons (t : string) (l : list string) :
  closes (t :: l) = ((if (t =? ")")%string then 1 else 0) + closes l)%nat.
Proof.
  unfold closes. rewrite filter_cons.
  destruct (String.eqb_spec t ")") as [->|Hne].
  - now destruct (decide (")" = ")")).
  - now destruct (decide (t = ")")).
Qed.

Lemma opens_none (p : list string) :
  Forall (fun t => t <> "(") p -> opens p = 0%nat.
Proof.
  induction 1 as [|t p Ht Hp IH]; [reflexivity|].
  rewrite opens_cons, IH. apply String.eqb_neq in Ht. now rewrite Ht.
Qed.

Lemma is_paren_false (tok : string) :
  is_paren tok = false -> tok <> "(" /\ tok <> ")".
Proof.
  unfold is_paren. intros H. apply orb_false_iff in H as [H1 H2].
  now apply String.eqb_neq in H1, H2.
Qed.

Lemma non_parens_nil : non_parens [] = [].
Proof. reflexivity. Qed.

Lemma opens_nil : opens [] = 0%nat.
Proof. reflexivity. Qed.

Lemma closes_nil : closes [] = 0%nat.
Proof. reflexivity. Qed.

(** One token: the tokens that are no parentheses are kept, no closing
    parenthesis is stored, and a closing parenthesis takes one opening
    parenthesis away. *)
Lemma postfix_step_account (opStack vec : list string) (tok : string)
  (opStack' vec' : list string) :
  postfix_step (opStack, vec) tok = Returns (opStack', vec') ->
  non_parens (vec' ++ opStack') ≡ₚ non_parens (vec ++ opStack) ++ non_parens [tok]
  /\ (Forall (fun t => t <> ")") (vec ++ opStack) ->
      Forall (fun t => t <> ")") (vec' ++ opStack'))
  /\ (opens (vec' ++ opStack') + closes [tok]
      = opens (vec ++ opStack) + opens [tok])%nat.
Proof.
  intros H.
  destruct (postfix_step_cases _ _ _ _ _ H)
    as [(-> & -> & ->) | [(-> & p & -> & -> & Hp)
       | [(Hpar & Hnum & -> & ->) | (Hpar & Hnum & p & l & -> & -> & -> & Hp)]]].
  - split; [|split].
    + rewrite !non_parens_app, !non_parens_cons. simpl. now rewrite app_nil_r.
    + intros Hc. apply Forall_app in Hc as [Hc1 Hc2]. apply Forall_app.
      split; [exact Hc1|]. constructor; [discriminate | exact Hc2].
    + rewrite !opens_app, !opens_cons, closes_cons, opens_nil, closes_nil.
      simpl. lia.
  - split; [|split].
    + rewrite !non_parens_app, !non_parens_cons. simpl.
      now rewrite app_nil_r, <- app_assoc.
    + intros Hc. apply Forall_app in Hc as [Hc1 Hc2].
      apply Forall_app in Hc2 as [Hc2 Hc3]. inversion Hc3; subst.
      rewrite <- app_assoc. now repeat (apply Forall_app; split).
    + rewrite !opens_app, !opens_cons, closes_cons, opens_nil, closes_nil.
      simpl. lia.
  - destruct (is_paren_false tok Hpar) as [Ho Hc].
    split; [|split].
    + rewrite !non_parens_app, !non_parens_cons, Hpar, non_parens_nil. cbv iota.
      rewrite app_nil_r, <- !app_assoc. f_equiv. apply Permutation_app_comm.
    + intros Hf. apply Forall_app in Hf as [Hf1 Hf2].
      repeat (apply Forall_app; split); try assumption. now constructor.
    + apply String.eqb_neq in Ho, Hc.
      rewrite !opens_app, ?opens_cons, closes_cons, opens_nil, closes_nil, Ho, Hc.
      simpl. lia.
  - destruct (is_paren_false tok Hpar) as [Ho Hc].
    split; [|split].
    + rewrite !non_parens_app, !non_parens_cons, Hpar, non_parens_nil. cbv iota.
      rewrite app_nil_r, <- !app_assoc. do 2 f_equiv.
      apply Permutation_app_comm.
    + intros Hf. apply Forall_app in Hf as [Hf1 Hf2].
      apply Forall_app in Hf2 as [Hf2 Hf3]. rewrite <- app_assoc.
      repeat (apply Forall_app; split); try assumption. now constructor.
    + apply String.eqb_neq in Ho, Hc.
      rewrite !opens_app, ?opens_cons, closes_cons, opens_nil, closes_nil, Ho, Hc.
      simpl. lia.
Qed.

Lemma postfix_loop_account (tokens : list string) :
  forall opStack vec opStack' vec',
    postfix_loop tokens (opStack, vec) = Returns (opStack', vec') ->
    non_parens (vec' ++ opStack') ≡ₚ non_parens (vec ++ opStack) ++ non_parens tokens
    /\ (Forall (fun t => t <> ")") (vec ++ opStack) ->
        Forall (fun t => t <> ")") (vec' ++ opStack'))
    /\ (opens (vec' ++ opStack') + closes tokens
        = opens (vec ++ opStack) + opens tokens)%nat.
Proof.
  induction tokens as [|tok rest IH]; intros st vec st' vec' H.
  - injection H as <- <-. split; [now rewrite app_nil_r|]. split; [auto|].
    reflexivity.
  - apply postfix_loop_cons_inv in H as ([st1 vec1] & Hstep & H).
    destruct (postfix_step_account _ _ _ _ _ Hstep) as (S1 & S2 & S3).
    destruct (IH _ _ _ _ H) as (L1 & L2 & L3).
    split; [|split].
    + rewrite L1, S1. change (tok :: rest) with ([tok] ++ rest).
      now rewrite (non_parens_app [tok] rest), <- app_assoc.
    + auto.
    + rewrite closes_cons, (opens_cons tok rest).
      rewrite closes_cons, (opens_cons tok []), opens_nil, closes_nil in S3. lia.
Qed.

(** X8: whatever the token sequence, when [to_postfix] returns, its output
    holds no closing parenthesis, holds the tokens of the input that are no
    parentheses, each as often as the input, and holds as many opening
    parentheses as the input has more opening than closing ones; for a
    balanced input the output has no parenthesis at all. *)
Theorem to_postfix_accounts_tokens (tokens out : list string) :
  to_postfix tokens = Returns out ->
  Forall (fun t => t <> ")") out
  /\ non_parens out ≡ₚ non_parens tokens
  /\ (opens out + closes tokens = opens tokens)%nat
  /\ (opens tokens = closes tokens -> Forall (fun t => is_paren t = false) out).
Proof.
  unfold to_postfix. intros H.
  apply bind_Returns_inv in H as ([st vec] & Hloop & H). injection H as <-.
  destruct (postfix_loop_account _ _ _ _ _ Hloop) as (L1 & L2 & L3).
  assert (Hc : Forall (fun t => t <> ")") (vec ++ st)) by (apply L2; constructor).
  split; [exact Hc|]. split; [exact L1|]. split; [exact L3|].
  intros Hbal. assert (Ho : opens (vec ++ st) = 0%nat) by (cbn in L3; lia).
  clear -Hc Ho. induction (vec ++ st) as [|t l IH]; [constructor|].
  inversion Hc; subst. rewrite opens_cons in Ho.
  destruct (String.eqb_spec t "(") as [->|Hne]; [discriminate Ho|].
  constructor; [|apply IH; [assumption | exact Ho]].
  unfold is_paren. apply String.eqb_neq in Hne.
  rewrite Hne. now apply String.eqb_neq.
Qed.

Lemma to_postfix_accounts_tokens_witness :
  Forall (fun t => t <> ")") ["1"; "2"; "+"; "3"; "*"]
  /\ non_parens ["1"; "2"; "+"; "3"; "*"] ≡ₚ non_parens (tokenise "(1+2)*3")
  /\ (opens ["1"; "2"; "+"; "3"; "*"] + closes (tokenise "(1+2)*3")
      = opens (tokenise "(1+2)*3"))%nat
  /\ (opens (tokenise "(1+2)*3") = closes (tokenise "(1+2)*3") ->
      Forall (fun t => is_paren t = false) ["1"; "2"; "+"; "3"; "*"]).
Proof.
  apply (to_postfix_accounts_tokens (tokenise "(1+2)*3")). reflexivity.
Defined.

(** ** Well-formed token sequences: what is built *)

Lemma well_shaped_cases (n : TreeNode) :
  well_shaped n = true ->
  (exists v, n = Node Value v None None)
  \/ (exists op v l r, n = Node op v (Some l) (Some r) /\ arithmetic op = true
                       /\ well_shaped l = true /\ well_shaped r = true).
Proof.
  destruct n as [op v [l|] [r|]]; intros H.
  - right. exists op, v, l, r. cbn [well_shaped] in H.
    assert (H' : arithmetic op && well_shaped l && well_shaped r = true)
      by (destruct op; try discriminate; exact H).
    apply andb_true_iff in H' as [H' H3]. apply andb_true_iff in H' as [H1 H2].
    auto.
  - destruct op; discriminate H.
  - destruct op; discriminate H.
  - left. exists v. destruct op; try discriminate H. reflexivity.
Qed.

Lemma well_shaped_expr_term_factor :
  (forall e, well_shaped (expr_tree e) = true)
  /\ (forall t, well_shaped (term_tree t) = true)
  /\ (forall f, well_shaped (factor_tree f) = true).
Proof.
  apply expr_term_factor_ind; try (intros; assumption); try reflexivity.
  - intros e IHe o t IHt. cbn [expr_tree binary well_shaped].
    rewrite IHe, IHt. now destruct o.
  - intros t IHt o f IHf. cbn [term_tree binary well_shaped].
    rewrite IHt, IHf. now destruct o.
Qed.




(** ** Evaluation on [int] *)

Lemma wrap_range (z : Z) : in_int (wrap z) = true.
Proof.
  unfold in_int, wrap, INT_MIN, INT_MAX.
  pose proof (Z.mod_pos_bound (z + 2147483648) 4294967296 eq_refl).
  apply andb_true_iff. split; apply Z.leb_le; lia.
Qed.

Lemma in_int_bounds (z : Z) : in_int z = true <-> INT_MIN <= z <= INT_MAX.
Proof.
  unfold in_int. rewrite andb_true_iff, !Z.leb_le. tauto.
Qed.

Lemma int_div_range (a b v : Z) :
  in_int a = true -> in_int b = true -> int_div a b = Returns v ->
  in_int v = true.
Proof.
  unfold int_div. intros Ha Hb H.
  destruct (Z.eqb_spec b 0) as [|Hb0]; [discriminate H|].
  apply in_int_bounds in Ha, Hb. apply in_int_bounds.
  unfold INT_MIN, INT_MAX in *.
  destruct (Z.eqb_spec a (-2147483648)) as [->|Ha'];
    destruct (Z.eqb_spec b (-1)) as [->|Hb']; try discriminate H;
    injection H as <-;
    match goal with
    | |- _ <= Z.quot ?x ?y <= _ =>
        pose proof (Z.quot_rem' x y); pose proof (Z.rem_bound_abs x y Hb0); nia
    end.
Qed.

Lemma int_div_outcome (a b : Z) :
  (exists v, int_div a b = Returns v) \/ int_div a b = Undefined IntegerDivision.
Proof. unfold int_div. destruct (_ || _); eauto. Qed.

Lemma leaves_in_int_binary (op : Operator) (v : Z) (l r : TreeNode) :
  arithmetic op = true ->
  leaves_in_int (Node op v (Some l) (Some r)) = leaves_in_int l && leaves_in_int r.
Proof. destruct op; try discriminate; reflexivity. Qed.

(** On a well-shaped tree whose leaves hold [int]s the evaluation returns an
    [int] or fails in a division. *)
Lemma evaluate_at_int (n : TreeNode) :
  well_shaped n = true -> leaves_in_int n = true ->
  (exists v, evaluate_at n = Returns v /\ in_int v = true)
  \/ evaluate_at n = Undefined IntegerDivision.
Proof.
  induction n as [op v l r IHl IHr] using TreeNode_ind. intros Hs Hi.
  destruct (well_shaped_cases _ Hs)
    as [(v' & E) | (op' & v' & cl & cr & E & Hop & Hl & Hr)];
    injection E as -> -> -> ->.
  - left. exists v'. split; [reflexivity|]. simpl in Hi.
    now rewrite !andb_true_r in Hi.
  - simpl in IHl, IHr. rewrite leaves_in_int_binary in Hi by exact Hop.
    apply andb_true_iff in Hi as [Hil Hir].
    change (evaluate_at (Node op' v' (Some cl) (Some cr)))
      with (evaluate (Some (Node op' v' (Some cl) (Some cr)))).
    rewrite evaluate_arithmetic by exact Hop. cbn [evaluate].
    destruct (IHl Hl Hil) as [(a & -> & Ha) | ->]; [|now right].
    destruct (IHr Hr Hir) as [(b & -> & Hb) | ->]; [|now right].
    cbn [mbind behaviour_bind].
    destruct op'; try discriminate Hop;
      try (left; eexists; split; [reflexivity | apply wrap_range]).
    destruct (int_div_outcome a b) as [[q Hq] | Hq]; [left | now right].
    exists q. split; [exact Hq | exact (int_div_range a b q Ha Hb Hq)].
Qed.

Lemma leaves_in_int_expr_term_factor :
  (forall e, leaves_in_int (expr_tree e) = true)
  /\ (forall t, leaves_in_int (term_tree t) = true)
  /\ (forall f, leaves_in_int (factor_tree f) = true).
Proof.
  apply expr_term_factor_ind; try (intros; assumption).
  - intros e IHe o t IHt. cbn [expr_tree]. unfold binary.
    rewrite leaves_in_int_binary by now destruct o. now rewrite IHe, IHt.
  - intros t IHt o f IHf. cbn [term_tree]. unfold binary.
    rewrite leaves_in_int_binary by now destruct o. now rewrite IHt, IHf.
  - intros s. cbn [factor_tree TreeNode_of_int leaves_in_int]. unfold to_number.
    now rewrite wrap_range.
Qed.

(** X10: for a well-formed token sequence, building the tree and evaluating
    it either returns a value in the range of [int] or fails in a division
    (zero divisor, or [INT_MIN / -1]); it dereferences no null pointer and
    accesses no empty stack. *)
Theorem evaluate_well_formed_outcome (e : expr) :
  expr_wf e = true ->
  (exists v, (buildTree (expr_tokens e) ≫= evaluateWholeTree) = Returns v
             /\ INT_MIN <= v <= INT_MAX)
  \/ (buildTree (expr_tokens e) ≫= evaluateWholeTree) = Undefined IntegerDivision.
Proof.
  intros Hwf. rewrite (buildTree_expr e Hwf). cbn [mbind behaviour_bind].
  destruct (evaluate_at_int (expr_tree e)
              (proj1 well_shaped_expr_term_factor e)
              (proj1 leaves_in_int_expr_term_factor e))
    as [(v & Hv & Hr) | Hu]; [left | now right].
  exists v. split; [exact Hv | now apply in_int_bounds].
Qed.

Lemma evaluate_well_formed_outcome_witness :
  (exists v, (buildTree (tokenise "2147483647+1") ≫= evaluateWholeTree) = Returns v
             /\ INT_MIN <= v <= INT_MAX)
  \/ (buildTree (tokenise "2147483647+1") ≫= evaluateWholeTree)
     = Undefined IntegerDivision.
Proof.
  apply (evaluate_well_formed_outcome
           (EAdd (ETerm (TFactor (FNumber "2147483647"))) OpPlus
              (TFactor (FNumber "1")))).
  reflexivity.
Defined.









(** ** Size and emptiness *)

Lemma countSize_at_positive (n : TreeNode) : 1 <= countSize_at n.
Proof.
  induction n as [op v l r IHl IHr] using TreeNode_ind.
  cbn [countSize_at]. destruct l as [cl|], r as [cr|]; simpl in *; lia.
Qed.

(** X12: the constructor from a node pointer caches a size that is never
    negative, and [isEmpty] answers true exactly for the tree made from the
    null pointer: a tree with a root has at least one node. *)
Theorem isEmpty_iff_null (r : option TreeNode) :
  0 <= size (ExprTree_of r)
  /\ (isEmpty (ExprTree_of r) = true <-> r = None)
  /\ (isEmpty (ExprTree_of r) = true <-> getRoot (ExprTree_of r) = None)
  /\ isEmpty ExprTree_empty = true.
Proof.
  unfold isEmpty, size, getRoot. cbn [ExprTree_of _size root].
  destruct r as [n|]; cbn [countSize].
  - pose proof (countSize_at_positive n) as Hn.
    repeat split; try lia; try discriminate; intros H; apply Z.eqb_eq in H; lia.
  - repeat split; reflexivity || lia.
Qed.

(** ** What [buildTree] does with every token sequence *)

Lemma stack_nodes_cons (n : TreeNode) (nodeStack : list TreeNode) :
  stack_nodes (n :: nodeStack) = countSize_at n + stack_nodes nodeStack.
Proof. reflexivity. Qed.

Lemma build_step_pushes (nodeStack nodeStack' : list TreeNode) (tok : string) :
  build_step nodeStack tok = Returns nodeStack' ->
  nodeStack' <> []
  /\ stack_nodes nodeStack' = stack_nodes nodeStack + 1
  /\ (exists n, nodeStack' = n :: drop (if is_number tok then 0 else 2) nodeStack
                /\ (is_number tok = false ->
                    (2 <= length nodeStack)%nat
                    /\ getOperator n = getOperator (createOperatorNode tok)
                    /\ getLeftChild n = nodeStack !! 1%nat
                    /\ getRightChild n = nodeStack !! 0%nat)).
Proof.
  unfold build_step. destruct (is_number tok).
  - intros [= <-]. split; [discriminate|].
    split; [rewrite stack_nodes_cons; cbn [TreeNode_of_int countSize_at]; lia|].
    eexists. split; [reflexivity | discriminate].
  - destruct nodeStack as [|r [|l rest]]; try discriminate.
    cbn [top pop mbind behaviour_bind]. intros [= <-].
    split; [discriminate|]. split.
    + rewrite !stack_nodes_cons. unfold createOperatorNode.
      repeat match goal with |- context [if ?b then _ else _] => destruct b end;
        cbn [TreeNode_of_operator setLeftChild setRightChild countSize_at]; lia.
    + eexists. split; [reflexivity|]. intros _. split; [simpl; lia|].
      unfold createOperatorNode.
      repeat match goal with |- context [if ?b then _ else _] => destruct b end;
        repeat split.
Qed.

Lemma build_loop_account (postfix : list string) :
  forall nodeStack nodeStack',
    build_loop postfix nodeStack = Returns nodeStack' ->
    stack_nodes nodeStack' = stack_nodes nodeStack + Z.of_nat (length postfix)
    /\ (postfix <> [] -> nodeStack' <> []).
Proof.
  induction postfix as [|tok rest IH]; intros ns ns' H.
  - injection H as <-. split; [cbn [length]; lia | congruence].
  - cbn [build_loop] in H. apply bind_Returns_inv in H as (ns1 & Hstep & H).
    destruct (build_step_pushes _ _ _ Hstep) as (Hne & Hn & _).
    destruct (IH _ _ H) as [Hn' Hne']. split; [cbn [length]; lia|].
    intros _. destruct rest as [|t rest']; [now injection H as <-|].
    apply Hne'. discriminate.
Qed.

(** X13: whatever the token sequence, when [buildTree] returns, the tree is
    empty exactly when the postfix form is empty (no token, or parentheses
    only), and the tree has at most as many nodes as the postfix form has
    tokens: every postfix token makes one node, the root is the top of the
    stack, and the trees below the top are left behind. *)
Theorem buildTree_accounts_nodes (tokens postfix : list string) (t : ExprTree) :
  to_postfix tokens = Returns postfix ->
  buildTree tokens = Returns t ->
  (isEmpty t = true <-> postfix = [])
  /\ 0 <= size t <= Z.of_nat (length postfix)
  /\ exists nodeStack,
       build_loop postfix [] = Returns nodeStack
       /\ getRoot t = head nodeStack
       /\ stack_nodes nodeStack = Z.of_nat (length postfix).
Proof.
  intros Hpost H. unfold buildTree in H. rewrite Hpost in H.
  cbn [mbind behaviour_bind] in H.
  apply bind_Returns_inv in H as (ns & Hloop & H).
  destruct (build_loop_account _ _ _ Hloop) as [Hn Hne].
  change (stack_nodes []) with 0 in Hn.
  assert (Hpos : forall l, 0 <= stack_nodes l).
  { induction l as [|n l IH]; [cbn; lia|]. rewrite stack_nodes_cons.
    pose proof (countSize_at_positive n). lia. }
  destruct ns as [|n ns]; injection H as <-.
  - change (stack_nodes []) with 0 in Hn.
    assert (Hnil : postfix = []) by (destruct postfix; [reflexivity | cbn in Hn; lia]).
    subst postfix. split; [|split].
    + split; reflexivity.
    + cbn. lia.
    + exists []. now repeat split.
  - pose proof (countSize_at_positive n) as Hn1. specialize (Hpos ns).
    rewrite stack_nodes_cons in Hn.
    split; [|split].
    + unfold isEmpty. cbn [ExprTree_of _size countSize]. split.
      * intros H. apply Z.eqb_eq in H. lia.
      * intros ->. cbn [length] in Hn. lia.
    + unfold size. cbn [ExprTree_of _size countSize]. lia.
    + exists (n :: ns). split; [exact Hloop|]. split; [reflexivity|].
      rewrite stack_nodes_cons. lia.
Qed.

Lemma buildTree_accounts_nodes_witness :
  (isEmpty (ExprTree_of (Some (TreeNode_of_int 2))) = true <-> ["1"; "2"] = [])
  /\ 0 <= size (ExprTree_of (Some (TreeNode_of_int 2))) <= Z.of_nat (length ["1"; "2"])
  /\ exists nodeStack,
       build_loop ["1"; "2"] [] = Returns nodeStack
       /\ getRoot (ExprTree_of (Some (TreeNode_of_int 2))) = head nodeStack
       /\ stack_nodes nodeStack = Z.of_nat (length ["1"; "2"]).
Proof.
  apply (buildTree_accounts_nodes (tokenise "1(2)") ["1"; "2"]); reflexivity.
Defined.

(** ** Tokens that are no operators *)

Lemma createOperatorNode_operator (tok : string) :
  arithmetic (getOperator (createOperatorNode tok)) = is_operator tok
  /\ (is_operator tok = false -> getOperator (createOperatorNode tok) = NoOp).
Proof.
  unfold createOperatorNode, is_operator.
  destruct (tok =? "+")%string; [split; [reflexivity | discriminate]|].
  destruct (tok =? "-")%string; [split; [reflexivity | discriminate]|].
  destruct (tok =? "*")%string; [split; [reflexivity | discriminate]|].
  destruct (tok =? "/")%string; [split; [reflexivity | discriminate]|].
  split; reflexivity.
Qed.

(** X14: when the last token of the postfix form is neither a number nor
    one of [+], [-], [*] and [/] (a letter, a tab, an opening parenthesis
    that was never closed) and [buildTree] returns, the root is a [NoOp]
    node with two children: the three renderers return the empty string and
    the evaluation returns the integer field of the root without looking at
    the children. *)
Theorem buildTree_unrecognised_root (tokens postfix : list string) (o : string)
  (t : ExprTree) :
  to_postfix tokens = Returns (postfix ++ [o]) ->
  buildTree tokens = Returns t ->
  is_number o = false ->
  is_operator o = false ->
  exists n l r,
    getRoot t = Some n /\ getOperator n = NoOp
    /\ getLeftChild n = Some l /\ getRightChild n = Some r
    /\ prefixOrder t = Returns ""
    /\ infixOrder t = Returns ""
    /\ postfixOrder t = Returns ""
    /\ evaluateWholeTree t = Returns (getValue n).
Proof.
  intros Hpost H Hnum Hop. unfold buildTree in H. rewrite Hpost in H.
  cbn [mbind behaviour_bind] in H.
  apply bind_Returns_inv in H as (ns & Hloop & H).
  rewrite build_loop_app in Hloop.
  apply bind_Returns_inv in Hloop as (ns1 & _ & Hstep).
  cbn [build_loop] in Hstep. apply bind_Returns_inv in Hstep as (ns2 & Hstep & [= ->]).
  destruct (build_step_pushes _ _ _ Hstep) as (_ & _ & n & -> & Hn).
  destruct (Hn Hnum) as (Hlen & Hopn & Hl & Hr). injection H as <-.
  rewrite (proj2 (createOperatorNode_operator o) Hop) in Hopn.
  destruct ns1 as [|r [|l rest]]; try (simpl in Hlen; lia).
  exists n, l, r. destruct n as [op v cl cr]. simpl in Hopn, Hl, Hr. subst op.
  repeat split; assumption.
Qed.

Lemma buildTree_unrecognised_root_witness :
  exists n l r,
    getRoot (ExprTree_of
               (Some (binary NoOp (TreeNode_of_int 1) (TreeNode_of_int 2)))) = Some n
    /\ getOperator n = NoOp
    /\ getLeftChild n = Some l /\ getRightChild n = Some r
    /\ prefixOrder (ExprTree_of
                      (Some (binary NoOp (TreeNode_of_int 1) (TreeNode_of_int 2))))
       = Returns ""
    /\ infixOrder (ExprTree_of
                     (Some (binary NoOp (TreeNode_of_int 1) (TreeNode_of_int 2))))
       = Returns ""
    /\ postfixOrder (ExprTree_of
                       (Some (binary NoOp (TreeNode_of_int 1) (TreeNode_of_int 2))))
       = Returns ""
    /\ evaluateWholeTree (ExprTree_of
                            (Some (binary NoOp (TreeNode_of_int 1) (TreeNode_of_int 2))))
       = Returns (getValue n).
Proof.
  apply (buildTree_unrecognised_root (tokenise "1a2") ["1"; "2"] "a"); reflexivity.
Defined.

(** ** The renderings of a built tree *)











(** ** The renderers on a built tree in memory *)



(** ** When the conversion and the tree building are defined *)

Lemma postfix_loop_matched (tokens : list string) :
  forall opStack vec,
    unmatched_close (opens opStack) tokens = false ->
    exists st, postfix_loop tokens (opStack, vec) = Returns st.
Proof.
  induction tokens as [|tok rest IH]; intros opStack vec H; [now eexists|].
  cbn [unmatched_close] in H. cbn [postfix_loop].
  destruct (String.eqb_spec tok "(") as [->|Hopen].
  - rewrite postfix_step_open. cbn [mbind behaviour_bind]. apply IH.
    now rewrite opens_cons.
  - destruct (String.eqb_spec tok ")") as [->|Hclose].
    + destruct (opens opStack) as [|d] eqn:Hd; [discriminate H|].
      unfold postfix_step.
      change ((")" =? "(")%string) with false. change ((")" =? ")")%string) with true.
      cbv iota.
      destruct (drain_to_open_some opStack vec d Hd) as (st & vec' & -> & Hst).
      cbn [mbind behaviour_bind pop]. apply IH. now rewrite Hst.
    + destruct (is_number tok) eqn:Hnum.
      * rewrite postfix_step_number by exact Hnum. cbn [mbind behaviour_bind].
        now apply IH.
      * rewrite postfix_step_operator by assumption. cbn [mbind behaviour_bind].
        apply IH. rewrite opens_cons, opens_left_by by exact Hopen.
        apply String.eqb_neq in Hopen. now rewrite Hopen.
Qed.

Lemma to_postfix_matched (tokens : list string) :
  unmatched_close 0 tokens = false ->
  exists out, to_postfix tokens = Returns out.
Proof.
  intros H. destruct (postfix_loop_matched tokens [] [] H) as ([st vec] & Hst).
  unfold to_postfix. rewrite Hst. now eexists.
Qed.

Lemma to_postfix_unmatched (tokens : list string) :
  unmatched_close 0 tokens = true ->
  to_postfix tokens = Undefined EmptyStackAccess.
Proof.
  intros H. unfold to_postfix.
  now rewrite (postfix_loop_unmatched_close tokens [] []).
Qed.

(** X17: [to_postfix] returns exactly for the token sequences in which every
    closing parenthesis has an opening one before it that is still open; on
    all other sequences it asks for the top of an empty stack.  Opening
    parentheses that are never closed, missing operands and unknown tokens
    do not stop it. *)
Theorem to_postfix_defined_iff (tokens : list string) :
  ((exists out, to_postfix tokens = Returns out)
   <-> unmatched_close 0 tokens = false)
  /\ (to_postfix tokens = Undefined EmptyStackAccess
      <-> unmatched_close 0 tokens = true).
Proof.
  pose proof (to_postfix_matched tokens) as Hyes.
  pose proof (to_postfix_unmatched tokens) as Hno.
  split; split.
  - intros [out Hout]. destruct (unmatched_close 0 tokens) eqn:E; [|reflexivity].
    rewrite (Hno eq_refl) in Hout. discriminate Hout.
  - exact Hyes.
  - intros Hu. destruct (unmatched_close 0 tokens) eqn:E; [reflexivity|].
    destruct (Hyes eq_refl) as [out Hout]. rewrite Hout in Hu. discriminate Hu.
  - exact Hno.
Qed.

Lemma build_loop_defined (postfix : list string) :
  forall nodeStack,
    (operands_suffice (length nodeStack) postfix = true ->
     exists st, build_loop postfix nodeStack = Returns st)
    /\ (operands_suffice (length nodeStack) postfix = false ->
        build_loop postfix nodeStack = Undefined EmptyStackAccess).
Proof.
  induction postfix as [|tok rest IH]; intros ns.
  - split; [now eexists | discriminate].
  - cbn [operands_suffice build_loop]. destruct (is_number tok) eqn:Hnum.
    + rewrite build_step_number by exact Hnum. cbn [mbind behaviour_bind].
      apply (IH (_ :: ns)).
    + destruct ns as [|r [|l ns']].
      * split; [discriminate|]. intros _.
        now rewrite build_step_underflow by (simpl; auto).
      * split; [discriminate|]. intros _.
        now rewrite build_step_underflow by (simpl; auto).
      * unfold build_step. rewrite Hnum. cbn [top pop mbind behaviour_bind length].
        apply (IH (_ :: ns')).
Qed.

(** X18: [buildTree] returns exactly when [to_postfix] returns a postfix form
    in which every token that is not a number finds two nodes on the stack;
    otherwise it asks for the top of an empty stack.  Too many operands do
    not stop it. *)
Theorem buildTree_defined_iff (tokens : list string) :
  ((exists t, buildTree tokens = Returns t)
   <-> exists postfix, to_postfix tokens = Returns postfix
                       /\ operands_suffice 0 postfix = true)
  /\ (buildTree tokens = Undefined EmptyStackAccess
      <-> to_postfix tokens = Undefined EmptyStackAccess
          \/ exists postfix, to_postfix tokens = Returns postfix
                             /\ operands_suffice 0 postfix = false).
Proof.
  unfold buildTree.
  pose proof (to_postfix_matched tokens) as Hyes.
  pose proof (to_postfix_unmatched tokens) as Hno.
  destruct (unmatched_close 0 tokens) eqn:E.
  - rewrite (Hno eq_refl). cbn [mbind behaviour_bind]. split; split.
    + intros [t Ht]. discriminate Ht.
    + intros (postfix & Hp & _). discriminate Hp.
    + now left.
    + reflexivity.
  - destruct (Hyes eq_refl) as [postfix Hp]. rewrite Hp. cbn [mbind behaviour_bind].
    destruct (build_loop_defined postfix []) as [Hret Hund]. cbn [length] in *.
    destruct (operands_suffice 0 postfix) eqn:Hs.
    + destruct (Hret eq_refl) as [st Hst]. rewrite Hst. cbn [mbind behaviour_bind].
      split; split.
      * intros _. exists postfix. now split.
      * intros _. destruct st; eauto.
      * intros H. destruct st; discriminate H.
      * intros [H | (p & [= <-] & H)]; [discriminate H | congruence].
    + rewrite (Hund eq_refl). cbn [mbind behaviour_bind]. split; split.
      * intros [t Ht]. discriminate Ht.
      * intros (p & [= <-] & H). congruence.
      * intros _. right. exists postfix. now split.
      * reflexivity.
Qed.
